(** * Broadcasting, strided views and override resolution

    A shallow embedding of [numpy/lib/stride_tricks.py] ([as_strided],
    [broadcast_arrays], [rolling_window]) and of the override protocol
    exercised by [numpy/core/tests/test_overrides.py], together with the
    properties the specification states about them. *)

From Stdlib Require Import ZArith Lia.
From stdpp Require Import base tactics option list strings pretty gmap.

Set Warnings "-clear-no-such-hyp".

(** ** Python classes

    A class is either [object] or a class statement naming its base; the
    boolean tells whether the class body itself defines
    [__array_function__].  Two classes are the same class exactly when they
    are structurally equal. *)

Inductive pytype : Type :=
| PyObject
| PyClass (name : string) (defines_hook : bool) (base : pytype).

#[global] Instance pytype_eq_dec : EqDecision pytype.
Proof. solve_decision. Defined.

(** [issubclass t u]: [u] is [t] or one of the bases of [t]. *)
Fixpoint issubclass (t u : pytype) : bool :=
  if decide (t = u) then true
  else match t with
       | PyObject => false
       | PyClass _ _ b => issubclass b u
       end.

(** [hasattr(t, '__array_function__')]: defined by the class or inherited. *)
Fixpoint has_array_function (t : pytype) : bool :=
  match t with
  | PyObject => false
  | PyClass _ d b => d || has_array_function b
  end.

Definition ndarray_t : pytype := PyClass "ndarray" true PyObject.

(** ** Exceptions and the effect monad

    Functions of the module either return or raise; the calls they make into
    the array core are recorded in a log, so that "no view was built" is a
    statement about the log. *)

Inductive exn : Type :=
| TypeError (msg : string)
| ValueError (msg : string)
| IndexError (msg : string)
| KeyError (msg : string).

#[global] Instance exn_eq_dec : EqDecision exn.
Proof. solve_decision. Defined.

Inductive outcome (A : Type) : Type :=
| Return (a : A)
| Raise (e : exn).
Arguments Return {A} a.
Arguments Raise {A} e.

Module StrideTricks.

(** ** Arrays *)

Record dtype : Type := mk_dtype {
  dt_kind : string;          (* dtype.kind, one character *)
  dt_itemsize : Z;
  dt_names : list string     (* field names of a structured dtype *)
}.

(** The header of an array: class, shape, strides, element type, the address
    of the buffer it borrows, and whatever a subclass hangs on its
    instances. *)
Record ndarray : Type := mk_ndarray {
  cls : pytype;
  shape : list Z;
  strides : list Z;
  dtype_of : dtype;
  buffer : Z;
  info : list Z
}.

(** The invariant of a header: one stride per dimension. *)
Definition wf_array (x : ndarray) : Prop :=
  length (strides x) = length (shape x).

(** [x.__array_interface__]: the entries [as_strided] copies and
    overwrites.  The entry ['strides'] is a tuple or [None]. *)
Record array_interface : Type := mk_interface {
  if_shape : list Z;
  if_strides : option (list Z);
  if_typestr : string * Z;   (* kind and item size; field names are not in it *)
  if_data : Z
}.

(** Modelled from the spec: the flag [C_CONTIGUOUS] of an array is kept by
    the compiled array core, which is not among the sources.  The axes are
    scanned from the last one: an axis of length 1 is passed over, any other
    axis has to step by the size of all that follows it.
    [contiguous_from itemsize dims strides] gives that size once all axes
    are scanned, and whether the strides fit. *)
Fixpoint contiguous_from (itemsize : Z) (dims strides : list Z) : Z * bool :=
  match dims, strides with
  | d :: dims', s :: strides' =>
      let '(sd, ok) := contiguous_from itemsize dims' strides' in
      if decide (d = 1%Z) then (sd, ok)
      else ((sd * d)%Z, ok && bool_decide (s = sd))
  | _, _ => (itemsize, true)
  end.

(** Modelled from the spec: [x.flags.c_contiguous], kept by the compiled
    array core.  An array with an axis of length 0 counts as contiguous
    whatever its strides. *)
Definition c_contiguous (x : ndarray) : bool :=
  bool_decide (0%Z ∈ shape x)
  || snd (contiguous_from (dt_itemsize (dtype_of x)) (shape x) (strides x)).

(** Modelled from the spec: the strides the compiled array core gives a new
    array when none are asked for.  C order: the last axis steps by the item
    size, every other axis by the size of all that follows it, an axis of
    length 0 not being counted in that size.  [fill_strides] gives the size
    of the whole and the strides. *)
Fixpoint fill_strides (itemsize : Z) (dims : list Z) : Z * list Z :=
  match dims with
  | [] => (itemsize, [])
  | d :: dims' =>
      let '(sd, st) := fill_strides itemsize dims' in
      (if decide (d = 0%Z) then sd else (sd * d)%Z, sd :: st)
  end.

Definition contiguous_strides (itemsize : Z) (dims : list Z) : list Z :=
  snd (fill_strides itemsize dims).

(** Modelled from the spec: the getter of [__array_interface__] lives in the
    compiled array core.  The spec's "strides not given default to the
    source's own strides" holds of an array that is not C-contiguous; for a
    C-contiguous one the entry ['strides'] is [None]. *)
Definition interface_of (x : ndarray) : array_interface :=
  {| if_shape := shape x;
     if_strides := if c_contiguous x then None else Some (strides x);
     if_typestr := (dt_kind (dtype_of x), dt_itemsize (dtype_of x));
     if_data := buffer x |}.

Inductive event : Type :=
| Ev_array (c : pytype) (subok : bool)   (* np.array(x, copy=False, subok=subok) *)
| Ev_from_interface (i : array_interface) (* np.asarray(DummyArray(interface, base=x)) *)
| Ev_view (t : pytype)                   (* array.view(type=t) *)
| Ev_finalize (t : pytype).              (* a call of t.__array_finalize__ *)

Definition is_construction (e : event) : bool :=
  match e with
  | Ev_array _ _ => false
  | _ => true
  end.

Definition M (A : Type) : Type := list event * outcome A.

Definition ret {A} (a : A) : M A := ([], Return a).
Definition raise {A} (e : exn) : M A := ([], Raise e).
Definition emit (e : event) : M unit := ([e], Return tt).
Definition bind {A B} (f : A → M B) (m : M A) : M B :=
  match m with
  | (l, Return a) => let '(l', r) := f a in (l ++ l', r)
  | (l, Raise e) => (l, Raise e)
  end.

#[global] Instance M_ret : MRet M := @ret.
#[global] Instance M_bind : MBind M := @bind.

(** [for x in xs: body], threading the variables the body assigns. *)
Fixpoint for_each {A St} (xs : list A) (body : A → St → M St) (s : St) : M St :=
  match xs with
  | [] => ret s
  | x :: xs' => s' ← body x s ; for_each xs' body s'
  end.

Definition for_range {St} (n : nat) (body : nat → St → M St) (s : St) : M St :=
  for_each (seq 0 n) body s.

(** [[f(x) for x in xs]]. *)
Fixpoint comprehension {A B} (f : A → M B) (xs : list A) : M (list B) :=
  match xs with
  | [] => ret []
  | x :: xs' => y ← f x ; ys ← comprehension f xs' ; ret (y :: ys)
  end.

(** [l[i]] for [i >= 0]. *)
Definition getitem {A} (l : list A) (i : nat) : M A :=
  match l !! i with
  | Some a => ret a
  | None => raise (IndexError "list index out of range")
  end.

(** [t[-1]]. *)
Definition getitem_last {A} (t : list A) : M A :=
  match last t with
  | Some a => ret a
  | None => raise (IndexError "tuple index out of range")
  end.

(** [l[i] = v] for [i >= 0]. *)
Definition setitem {A} (l : list A) (i : nat) (v : A) : M (list A) :=
  if bool_decide (i < length l) then ret (<[i:=v]> l)
  else raise (IndexError "list assignment index out of range").

(** [max(ns)]. *)
Definition py_max (ns : list nat) : M nat :=
  match ns with
  | [] => raise (ValueError "max() arg is an empty sequence")
  | n :: ns' => ret (foldl Nat.max n ns')
  end.

(** [s.remove(x)] on a set. *)
Definition set_remove (s : gset Z) (x : Z) : M (gset Z) :=
  if bool_decide (x ∈ s) then ret (s ∖ {[x]}) else raise (KeyError (pretty x)).

(** [s.pop()] on a set. *)
Definition set_pop (s : gset Z) : M Z :=
  match elements s with
  | x :: _ => ret x
  | [] => raise (KeyError "pop from an empty set")
  end.

(** Keyword arguments, by name; of a value only its truth matters here. *)
Abbreviation kwargs_t := (gmap string bool).

Section WithFinalize.

(** [t.__array_finalize__]: [None] for the base class and for subclasses
    that do not define it; otherwise a hook that sees the array the view was
    taken from and the metadata already on the new instance, and gives the
    metadata the instance has afterwards. *)
Variable array_finalize : pytype → option (ndarray → list Z → list Z).

(** Modelled from the spec: [np.array(x, copy=False, subok=subok)] lives in
    the compiled array core.  The operand is coerced without copying; with
    [subok] false the result is forced to the base class even if the operand
    was of a derived class. *)
Definition np_array (x : ndarray) (subok : bool) : M ndarray :=
  emit (Ev_array (cls x) subok);;
  if subok || bool_decide (cls x = ndarray_t) then ret x
  else ret {| cls := ndarray_t; shape := shape x; strides := strides x;
              dtype_of := dtype_of x; buffer := buffer x; info := [] |}.

(** Modelled from the spec: [np.asarray(DummyArray(interface, base=x))]
    lives in the compiled array core.  It builds a base-class header over
    the buffer the interface names, with the shape and strides the interface
    holds, the strides being laid out in C order when the interface holds
    [None] for them; the element type is rebuilt from the type string
    alone. *)
Definition np_asarray_interface (i : array_interface) : M ndarray :=
  emit (Ev_from_interface i);;
  ret {| cls := ndarray_t; shape := if_shape i;
         strides := default (contiguous_strides (snd (if_typestr i))
                                                (if_shape i))
                            (if_strides i);
         dtype_of := {| dt_kind := fst (if_typestr i);
                        dt_itemsize := snd (if_typestr i); dt_names := [] |};
         buffer := if_data i; info := [] |}.

Definition set_dtype (a : ndarray) (d : dtype) : ndarray :=
  {| cls := cls a; shape := shape a; strides := strides a;
     dtype_of := d; buffer := buffer a; info := info a |}.

(** Modelled from the spec: [a.view(type=t)] lives in the compiled array
    core.  The new instance of [t] shares shape, strides, element type and
    buffer with [a]; when [t] defines [__array_finalize__] the core calls it
    on the new instance, with [a] as the array the view is taken from. *)
Definition view_as (a : ndarray) (t : pytype) : M ndarray :=
  emit (Ev_view t);;
  match array_finalize t with
  | Some hook =>
      emit (Ev_finalize t);;
      ret {| cls := t; shape := shape a; strides := strides a;
             dtype_of := dtype_of a; buffer := buffer a;
             info := hook a [] |}
  | None =>
      ret {| cls := t; shape := shape a; strides := strides a;
             dtype_of := dtype_of a; buffer := buffer a; info := [] |}
  end.

Definition as_strided (x : ndarray) (shape' strides' : option (list Z))
    (subok : bool) : M ndarray :=
  x ← np_array x subok;
  let interface := interface_of x in
  let interface :=
    match shape' with
    | Some sh => {| if_shape := sh; if_strides := if_strides interface;
                    if_typestr := if_typestr interface;
                    if_data := if_data interface |}
    | None => interface
    end in
  let interface :=
    match strides' with
    | Some st => {| if_shape := if_shape interface; if_strides := Some st;
                    if_typestr := if_typestr interface;
                    if_data := if_data interface |}
    | None => interface
    end in
  array ← np_asarray_interface interface;
  let array :=
    if bool_decide (dt_kind (dtype_of array) = "V"%string)
    then set_dtype array (dtype_of x) else array in
  if bool_decide (cls x ≠ cls array) then
    array ← view_as array (cls x);
    match array_finalize (cls array) with
    | Some hook =>
        emit (Ev_finalize (cls array));;
        ret {| cls := cls array; shape := shape array;
               strides := strides array; dtype_of := dtype_of array;
               buffer := buffer array; info := hook x (info array) |}
    | None => ret array
    end
  else ret array.

(** [d.pop(key, default)]. *)
Definition dict_pop_default (d : kwargs_t) (key : string) (dflt : bool)
    : bool * kwargs_t :=
  (default dflt (d !! key), delete key d).

(** [d.pop()]: [dict.pop] takes the key as a required argument. *)
Definition dict_pop_nokey (d : kwargs_t) : M string :=
  raise (TypeError "pop expected at least 1 arguments, got 0").

Definition shape_mismatch_msg (axis : nat) : string :=
  "shape mismatch: two or more arrays have incompatible dimensions on axis "
  +:+ pretty axis +:+ ".".

(** Lines 105-109: the body of the loop that prepends dimensions. *)
Definition pad_body (biggest : nat) (nds : list nat) (i : nat)
    (st : list (list Z) * list (list Z)) : M (list (list Z) * list (list Z)) :=
  let '(shapes, strides) := st in
  nd ← getitem nds i;
  let diff := biggest - nd in
  if bool_decide (0 < diff) then
    s ← getitem shapes i;
    shapes ← setitem shapes i (replicate diff 1%Z ++ s);
    t ← getitem strides i;
    strides ← setitem strides i (replicate diff 0%Z ++ t);
    ret (shapes, strides)
  else ret (shapes, strides).

(** Lines 129-132: the body of the loop that stretches length-1 axes. *)
Definition stretch_body (axis : nat) (new_length : Z) (i : nat)
    (st : list (list Z) * list (list Z)) : M (list (list Z) * list (list Z)) :=
  let '(shapes, strides) := st in
  s ← getitem shapes i;
  l ← getitem s axis;
  if bool_decide (l = 1%Z) then
    s ← setitem s axis new_length;
    shapes ← setitem shapes i s;
    t ← getitem strides i;
    t ← setitem t axis 0%Z;
    strides ← setitem strides i t;
    ret (shapes, strides)
  else ret (shapes, strides).

(** Lines 113-136: the body of the loop over the axes. *)
Definition axis_body (n : nat) (axis : nat)
    (st : list (list Z) * list (list Z) * list Z)
    : M (list (list Z) * list (list Z) * list Z) :=
  let '(shapes, strides, common_shape) := st in
  lengths ← comprehension (λ s, getitem s axis) shapes;
  let unique : gset Z := list_to_set (lengths ++ [1%Z]) in
  if bool_decide (2 < size unique) then
    raise (ValueError (shape_mismatch_msg axis))
  else if bool_decide (size unique = 2) then
    unique ← set_remove unique 1%Z;
    new_length ← set_pop unique;
    let common_shape := common_shape ++ [new_length] in
    '(shapes, strides) ← for_range n (stretch_body axis new_length)
                                    (shapes, strides);
    ret (shapes, strides, common_shape)
  else
    ret (shapes, strides, common_shape ++ [1%Z]).

(** [zip(args, shapes, strides)]. *)
Definition zip3 {A B C} (xs : list A) (ys : list B) (zs : list C)
    : list (A * B * C) :=
  zip (zip xs ys) zs.

Definition broadcast_arrays (args : list ndarray) (kwargs : kwargs_t)
    : M (list ndarray) :=
  let '(subok, kwargs) := dict_pop_default kwargs "subok" false in
  if bool_decide (kwargs ≠ ∅) then
    k ← dict_pop_nokey kwargs;
    raise (TypeError
             ("broadcast_arrays() got an unexpected keyword argument " +:+ k))
  else
    args ← comprehension (λ _m, np_array _m subok) args;
    let shapes := shape <$> args in
    if bool_decide (size (list_to_set shapes : gset (list Z)) = 1) then
      ret args
    else
      let strides := strides <$> args in
      let nds := length <$> shapes in
      biggest ← py_max nds;
      '(shapes, strides) ← for_range (length args) (pad_body biggest nds)
                                      (shapes, strides);
      '(shapes, strides, common_shape) ←
          for_range biggest (axis_body (length args)) (shapes, strides, []);
      comprehension
        (λ '(x, sh, st), as_strided x (Some sh) (Some st) subok)
        (zip3 args shapes strides).

(** Python 2 evaluates [a.shape[:-1]] as the tuple without its last entry. *)
Definition rolling_window (a : ndarray) (window : Z) : M ndarray :=
  if bool_decide (window < 1)%Z then
    raise (ValueError "`window` must be at least 1.")
  else
    last_len ← getitem_last (shape a);
    if bool_decide (window > last_len)%Z then
      raise (ValueError "`window` is too long.")
    else
      let shape' := removelast (shape a) ++ [(last_len - window + 1)%Z; window] in
      last_stride ← getitem_last (strides a);
      let strides' := strides a ++ [last_stride] in
      as_strided a (Some shape') (Some strides') false.

End WithFinalize.

(** ** What broadcasting is to compute

    The definitions of this part follow the words of the specification, not
    the code: shapes are aligned on their last axis, an axis is compatible
    when its lengths are all equal or 1, and the common length of an axis is
    the length other than 1 found there. *)

(** The largest number of dimensions among the shapes. *)
Definition ndmax (shapes : list (list Z)) : nat := max_list (length <$> shapes).

(** [v], extended on the left to [nd] entries. *)
Definition right_align (nd : nat) (fill : Z) (v : list Z) : list Z :=
  replicate (nd - length v) fill ++ v.

(** The lengths the operands contribute at axis [j] once aligned. *)
Definition axis_lengths (shapes : list (list Z)) (j : nat) : list Z :=
  (λ s, default 1%Z (right_align (ndmax shapes) 1%Z s !! j)) <$> shapes.

Definition common_length (ls : list Z) : Z :=
  default 1%Z (head (filter (λ l, l ≠ 1%Z) ls)).

Definition common_shape (shapes : list (list Z)) : list Z :=
  (λ j, common_length (axis_lengths shapes j)) <$> seq 0 (ndmax shapes).

Definition compatible_lengths (ls : list Z) : Prop :=
  ∃ c, Forall (λ l, l = c ∨ l = 1%Z) ls.

Definition broadcastable (shapes : list (list Z)) : Prop :=
  Forall (λ j, compatible_lengths (axis_lengths shapes j))
         (seq 0 (ndmax shapes)).

(** The common length as the sentence on compatible pairs words it: the
    length greater than 1, or 1 when there is none. *)
Definition common_length_gt1 (ls : list Z) : Z :=
  default 1%Z (head (filter (λ l, 1 < l)%Z ls)).

Definition common_shape_gt1 (shapes : list (list Z)) : list Z :=
  (λ j, common_length_gt1 (axis_lengths shapes j)) <$> seq 0 (ndmax shapes).

(** Two operands disagree at an axis with lengths that are both more
    than 1. *)
Definition mismatch_gt1 (ls : list Z) : Prop :=
  ∃ a b, a ∈ ls ∧ b ∈ ls ∧ a ≠ b ∧ (1 < a)%Z ∧ (1 < b)%Z.

(** ** Auxiliary definitions

    Closed forms of what the loops of [broadcast_arrays] compute, used to
    state the lemmas about them. *)

(** [set(lengths + [1])]. *)
Definition unique_of (ls : list Z) : gset Z := list_to_set (ls ++ [1%Z]).

(** The strides of an operand after the padding loop. *)
Definition pad_strides (nd : nat) (s t : list Z) : list Z :=
  replicate (nd - length s) 0%Z ++ t.

(** One row of [shapes] and of [strides] after the stretching loop. *)
Definition stretch_shape (axis : nat) (c : Z) (s : list Z) : list Z :=
  if decide (s !! axis = Some 1%Z) then <[axis:=c]> s else s.

Definition stretch_strides (axis : nat) (s t : list Z) : list Z :=
  if decide (s !! axis = Some 1%Z) then <[axis:=0%Z]> t else t.

(** The lengths found at axis [j] of the padded shapes. *)
Definition column (j : nat) (rows : list (list Z)) : list Z :=
  (λ s, default 1%Z (s !! j)) <$> rows.

Definition shape_upto (cs : nat → Z) (k : nat) (p : list Z) : list Z :=
  imap (λ j l, if decide (j < k) then cs j else l) p.

Definition strides_upto (cs : nat → Z) (k : nat) (p t : list Z) : list Z :=
  imap (λ j v, if decide (j < k ∧ p !! j = Some 1%Z ∧ cs j ≠ 1%Z)
               then 0%Z else v) t.

(** [ps] and [ts] being the shapes and strides once padded and [cs j] the
    common length of axis [j], the variables of the loop over the axes hold
    [state_upto cs k ps ts] after the axes below [k]. *)
Definition state_upto (cs : nat → Z) (k : nat) (ps ts : list (list Z))
    : list (list Z) * list (list Z) * list Z :=
  (shape_upto cs k <$> ps, zip_with (strides_upto cs k) ps ts, cs <$> seq 0 k).

Definition axis_common (ps : list (list Z)) (j : nat) : Z :=
  common_length (column j ps).

(** What [np.array(x, copy=False, subok=subok)] returns. *)
Definition coerce (subok : bool) (x : ndarray) : ndarray :=
  if subok || bool_decide (cls x = ndarray_t) then x
  else {| cls := ndarray_t; shape := shape x; strides := strides x;
          dtype_of := dtype_of x; buffer := buffer x; info := [] |}.

(** The keyword arguments of a call that passes none, or only [subok=b]. *)
Definition kw_subok (o : option bool) : kwargs_t :=
  match o with
  | Some b => {[ "subok"%string := b ]}
  | None => ∅
  end.

Definition prepend {A} (l : list event) (m : M A) : M A := (l ++ m.1, m.2).

Definition coerce_events (subok : bool) (args : list ndarray) : list event :=
  (λ x, Ev_array (cls x) subok) <$> args.

(** [y] is operand [x] broadcast to the common shape of [shapes]: it has the
    common shape and borrows the buffer of [x]; on an axis where [x] had
    length 1 and the common length is another one its stride is 0; on an
    axis where [x] already had the common length its stride is the one of
    [x] (0 on the axes the alignment adds). *)
Definition broadcast_view (shapes : list (list Z)) (x y : ndarray) : Prop :=
  shape y = common_shape shapes ∧
  buffer y = buffer x ∧
  ∀ j l c,
    right_align (ndmax shapes) 1%Z (shape x) !! j = Some l →
    common_shape shapes !! j = Some c →
    (l = 1%Z → c ≠ 1%Z → strides y !! j = Some 0%Z) ∧
    (l = c → strides y !! j = right_align (ndmax shapes) 0%Z (strides x) !! j).

Definition built_from (subok : bool) (row : ndarray * list Z * list Z)
    (y : ndarray) : Prop :=
  shape y = row.1.2 ∧ strides y = row.2 ∧ buffer y = buffer row.1.1 ∧
  cls y = cls (coerce subok row.1.1).

(** ** Sample operands *)

Definition float64 : dtype := {| dt_kind := "f"; dt_itemsize := 8; dt_names := [] |}.

(** A base-class array of doubles over the buffer at address 4096. *)
Definition base_array (sh st : list Z) : ndarray :=
  {| cls := ndarray_t; shape := sh; strides := st; dtype_of := float64;
     buffer := 4096; info := [] |}.

(** No class defines [__array_finalize__]. *)
Definition no_finalize : pytype → option (ndarray → list Z → list Z) :=
  λ _, None.

(** ** Further definitions: views in closed form and addressing *)

(** The element type [as_strided] ends with: rebuilt from the type string,
    and set back to the one of the input when its kind is ['V']. *)
Definition rebuild_dtype (d : dtype) : dtype :=
  if bool_decide (dt_kind d = "V"%string) then d
  else {| dt_kind := dt_kind d; dt_itemsize := dt_itemsize d; dt_names := [] |}.

(** The interface [as_strided] hands to the array core. *)
Definition strided_interface (x : ndarray) (osh ost : option (list Z))
    : array_interface :=
  {| if_shape := default (shape x) osh;
     if_strides := match ost with
                   | Some st => Some st
                   | None => if c_contiguous x then None else Some (strides x)
                   end;
     if_typestr := (dt_kind (dtype_of x), dt_itemsize (dtype_of x));
     if_data := buffer x |}.

(** The base-class array built from it, with its element type set. *)
Definition base_view (x : ndarray) (osh ost : option (list Z)) : ndarray :=
  {| cls := ndarray_t;
     shape := default (shape x) osh;
     strides := default (contiguous_strides (dt_itemsize (dtype_of x))
                                            (default (shape x) osh))
                        (if_strides (strided_interface x osh ost));
     dtype_of := rebuild_dtype (dtype_of x);
     buffer := buffer x;
     info := [] |}.

(** The array [as_strided] returns, and the calls it logs. *)
Definition strided_view (af : pytype → option (ndarray → list Z → list Z))
    (x : ndarray) (osh ost : option (list Z)) (subok : bool) : ndarray :=
  let x' := coerce subok x in
  let a := base_view x osh ost in
  {| cls := cls x';
     shape := shape a;
     strides := strides a;
     dtype_of := dtype_of a;
     buffer := buffer a;
     info := if decide (cls x' = ndarray_t) then []
             else match af (cls x') with
                  | Some hook => hook x' (hook a [])
                  | None => []
                  end |}.

Definition strided_log (af : pytype → option (ndarray → list Z → list Z))
    (x : ndarray) (osh ost : option (list Z)) (subok : bool) : list event :=
  let x' := coerce subok x in
  [Ev_array (cls x) subok; Ev_from_interface (strided_interface x osh ost)]
  ++ (if decide (cls x' = ndarray_t) then []
      else Ev_view (cls x')
           :: match af (cls x') with
              | Some _ => [Ev_finalize (cls x'); Ev_finalize (cls x')]
              | None => []
              end).

(** An event that builds or finalises an instance of a subclass. *)
Definition is_subclass_event (e : event) : bool :=
  match e with
  | Ev_view _ | Ev_finalize _ => true
  | _ => false
  end.

(** The offset, from the start of the buffer, of the element at index [idx]
    of an array with the given strides: one step along axis [k] moves by
    [strides[k]]. *)
Fixpoint offset (strides idx : list Z) : Z :=
  match strides, idx with
  | s :: strides', i :: idx' => (i * s + offset strides' idx')%Z
  | _, _ => 0%Z
  end.

(** [idx] is an index into an array of the given shape. *)
Definition in_bounds (shape idx : list Z) : Prop :=
  Forall2 (λ n i, (0 ≤ i < n)%Z) shape idx.

(** The index of an operand of shape [sx] that index [idx] of its broadcast
    view stands for: the axes added on the left are dropped and an axis of
    length 1 is read at 0. *)
Definition source_index (sx idx : list Z) : list Z :=
  zip_with (λ n i, if decide (n = 1%Z) then 0%Z else i)
           sx (drop (length idx - length sx) idx).

(** The strides of a broadcast view, axis by axis, from the aligned lengths
    [p] of the operand, the common lengths [c] and the aligned strides
    [t]. *)
Fixpoint stretched_strides (p c t : list Z) : list Z :=
  match p, c, t with
  | l :: p', cj :: c', v :: t' =>
      (if decide (l = 1%Z ∧ cj ≠ 1%Z) then 0%Z else v)
      :: stretched_strides p' c' t'
  | _, _, _ => []
  end.

Definition broadcast_strides (shapes : list (list Z)) (x : ndarray) : list Z :=
  stretched_strides (right_align (ndmax shapes) 1%Z (shape x))
                    (common_shape shapes)
                    (right_align (ndmax shapes) 0%Z (strides x)).

(** What [broadcast_arrays] returns for operand [x]. *)
Definition broadcast_result (shapes : list (list Z)) (subok : bool)
    (x y : ndarray) : Prop :=
  shape y = common_shape shapes ∧
  strides y = broadcast_strides shapes x ∧
  buffer y = buffer x ∧
  cls y = cls (coerce subok x).

(** C7 as it is worded: the operands come back unchanged. *)
Definition returns_operands_unchanged
    (af : pytype → option (ndarray → list Z → list Z))
    (args : list ndarray) (kwargs : kwargs_t) : Prop :=
  ∃ log, broadcast_arrays af args kwargs = (log, Return args).

(** C8 as it is worded: same shape, same strides, same base buffer. *)
Definition same_header (x y : ndarray) : Prop :=
  shape y = shape x ∧ strides y = strides x ∧ buffer y = buffer x.

(** Two lengths of one axis that differ and are both other than 1. *)
Definition mismatch_ne1 (ls : list Z) : Prop :=
  ∃ a b, a ∈ ls ∧ b ∈ ls ∧ a ≠ b ∧ a ≠ 1%Z ∧ b ≠ 1%Z.

(** A subclass of the base array class that defines [__array_finalize__],
    and an instance of it carrying metadata. *)
Definition InfoArray : pytype := PyClass "InfoArray" false ndarray_t.

Definition info_array (sh st : list Z) (meta : list Z) : ndarray :=
  {| cls := InfoArray; shape := sh; strides := st; dtype_of := float64;
     buffer := 4096; info := meta |}.

(** Its hook copies the metadata of the array the view is taken from. *)
Definition copy_info_finalize : pytype → option (ndarray → list Z → list Z) :=
  λ t, if decide (t = InfoArray) then Some (λ obj _, info obj) else None.

(** A hook that keeps what is already on the instance and appends the
    shape of the array the view is taken from. *)
Definition append_shape_finalize
    : pytype → option (ndarray → list Z → list Z) :=
  λ t, if decide (t = InfoArray) then Some (λ obj cur, cur ++ shape obj)
       else None.

End StrideTricks.

Module Overrides.

(** ** Objects, candidates and errors *)

(** An argument of a call: its identity and its class. *)
Record pyobj : Type := mk_obj {
  obj_id : nat;
  type_of : pytype
}.

#[global] Instance pyobj_eq_dec : EqDecision pyobj.
Proof. solve_decision. Defined.

Inductive pyval : Type :=
| PyNone
| PyStr (s : string)
| PyRef (o : pyobj).

Inductive error : Type :=
| TooManyCandidateTypesError (limit : nat)
| NoImplementationFoundError (module_name call_name : string)
| HookFailure (e : exn).

Inductive result (A : Type) : Type :=
| Ok (a : A)
| Failed (e : error).
Arguments Ok {A} a.
Arguments Failed {A} e.

(** The cap on the distinct candidate types of one call. *)
Definition max_candidate_types : nat := 32.

(** ** OverrideResolver *)

(** Modelled from the spec: the resolver ([_get_implementing_args] of
    [numpy/core/overrides.py]) is not among the sources; only its test-suite
    is.  "Insert its candidate at the position right before the first
    already-placed candidate of which it is a subclass, else append at the
    end." *)
Fixpoint insert_candidate (arg : pyobj) (placed : list pyobj) : list pyobj :=
  match placed with
  | [] => [arg]
  | old :: rest =>
      if issubclass (type_of arg) (type_of old) then arg :: old :: rest
      else old :: insert_candidate arg rest
  end.

(** Modelled from the spec: one step of the left-to-right scan of the
    resolver, which is not among the sources.  An argument counts when its
    class declares the override capability and no argument of that class was
    seen before; a 33rd distinct class is an error.  The base array class
    takes part like any other class that has the hook, which is what
    [test_ndarray] and [test_ndarray_subclasses] of the suite expect. *)
Definition consider (placed : list pyobj) (arg : pyobj) : result (list pyobj) :=
  if has_array_function (type_of arg)
     && negb (bool_decide (type_of arg ∈ type_of <$> placed))
  then
    if bool_decide (max_candidate_types ≤ length placed)
    then Failed (TooManyCandidateTypesError max_candidate_types)
    else Ok (insert_candidate arg placed)
  else Ok placed.

(** Modelled from the spec: the scan itself, "arguments left-to-right", from
    the candidates placed so far; the resolver is not among the sources. *)
Fixpoint resolve_from (placed : list pyobj) (args : list pyobj)
    : result (list pyobj) :=
  match args with
  | [] => Ok placed
  | arg :: rest =>
      match consider placed arg with
      | Ok placed' => resolve_from placed' rest
      | Failed e => Failed e
      end
  end.

(** Modelled from the spec: [resolveCandidates(relevantArgs)] of §4.3, whose
    implementation is not among the sources. *)
Definition resolveCandidates (relevantArgs : list pyobj) : result (list pyobj) :=
  resolve_from [] relevantArgs.

(** ** DispatchGate *)

Inductive hook_result : Type :=
| Claimed (v : pyval)
| Declined
| Raised (e : exn).

(** A dispatchable call: where it lives and what it is called. *)
Record call : Type := mk_call {
  call_module : string;
  call_name : string
}.

Section Dispatch.

(** The override hook of an object, given the call, the distinct candidate
    types and the arguments. *)
Variable hook : pyobj → call → list pytype → list pyobj → hook_result.

(** Modelled from the spec: state TRYING of §4.4, whose implementation is
    not among the sources. *)
Fixpoint try_candidates (c : call) (types : list pytype) (args : list pyobj)
    (candidates : list pyobj) : result pyval :=
  match candidates with
  | [] => Failed (NoImplementationFoundError (call_module c) (call_name c))
  | candidate :: rest =>
      match hook candidate c types args with
      | Claimed v => Ok v
      | Declined => try_candidates c types args rest
      | Raised e => Failed (HookFailure e)
      end
  end.

(** Modelled from the spec: [dispatch] of §4.4, whose implementation is not
    among the sources. *)
Definition dispatch (c : call) (relevant : list pyobj) (args : list pyobj)
    (invoke_default : list pyobj → result pyval) : result pyval :=
  match resolveCandidates relevant with
  | Failed e => Failed e
  | Ok [] => invoke_default args
  | Ok candidates =>
      try_candidates c (type_of <$> candidates) args candidates
  end.

End Dispatch.

(** ** The classes and objects of the test-suite *)

Definition int_t : pytype := PyClass "int" false PyObject.
Definition OverrideSub : pytype := PyClass "OverrideSub" true ndarray_t.
Definition NoOverrideSub : pytype := PyClass "NoOverrideSub" false ndarray_t.
Definition Other : pytype := PyClass "Other" true PyObject.
Definition A : pytype := PyClass "A" true PyObject.
Definition B : pytype := PyClass "B" true A.
Definition C : pytype := PyClass "C" true A.
Definition D : pytype := PyClass "D" true PyObject.

Definition one : pyobj := mk_obj 0 int_t.
Definition array : pyobj := mk_obj 1 ndarray_t.
Definition override_sub : pyobj := mk_obj 2 OverrideSub.
Definition no_override_sub : pyobj := mk_obj 3 NoOverrideSub.
Definition other : pyobj := mk_obj 4 Other.
Definition a : pyobj := mk_obj 5 A.
Definition b : pyobj := mk_obj 6 B.
Definition c : pyobj := mk_obj 7 C.
Definition d : pyobj := mk_obj 8 D.

(** [type('A' + str(i), (object,), namespace)] and one instance of it. *)
Definition duck_type (i : nat) : pytype := PyClass ("A" +:+ pretty i) true PyObject.
Definition duck (i : nat) : pyobj := mk_obj (100 + i) (duck_type i).

(** ** Auxiliary definitions

    The invariant of the scan and the relations the ordering is stated
    with. *)

Fixpoint depth (t : pytype) : nat :=
  match t with
  | PyObject => 0
  | PyClass _ _ b => S (depth b)
  end.

Definition strict_subclass (t u : pytype) : Prop :=
  t ≠ u ∧ issubclass t u = true.

#[global] Instance strict_subclass_dec t u : Decision (strict_subclass t u).
Proof. unfold strict_subclass. apply _. Defined.

(** No candidate is a strict subclass of one placed before it. *)
Fixpoint subclass_first (l : list pyobj) : Prop :=
  match l with
  | [] => True
  | y :: l' =>
      Forall (λ x, ¬ strict_subclass (type_of x) (type_of y)) l'
      ∧ subclass_first l'
  end.

(** [x] stands before [y] in [l]. *)
Definition precedes (l : list pyobj) (x y : pyobj) : Prop :=
  ∃ i j, l !! i = Some x ∧ l !! j = Some y ∧ i < j.

(** What the scan maintains: one candidate per class, subclasses first,
    capable classes only, no more than the cap. *)
Record good (placed : list pyobj) : Prop := mk_good {
  good_nodup : NoDup (type_of <$> placed);
  good_sorted : subclass_first placed;
  good_capable : Forall (λ x, has_array_function (type_of x) = true) placed;
  good_length : length placed ≤ max_candidate_types
}.

Definition new_type (placed : list pyobj) (arg : pyobj) : Prop :=
  has_array_function (type_of arg) = true ∧
  type_of arg ∉ type_of <$> placed.

(** ** What the resolver is to compute

    The definitions of this part follow the words of the specification. *)

(** The distinct override-capable classes among the arguments. *)
Definition candidate_types (args : list pyobj) : list pytype :=
  remove_dups (filter (λ t, has_array_function t = true) (type_of <$> args)).

Definition related (t u : pytype) : Prop :=
  issubclass t u = true ∨ issubclass u t = true.

(** The ordering as C3 words it for unrelated classes: first seen, first
    placed. *)
Definition keeps_first_seen_order (args : list pyobj) : Prop :=
  ∀ r x y, resolveCandidates args = Ok r → x ∈ r → y ∈ r →
           ¬ related (type_of x) (type_of y) →
           precedes args x y → precedes r x y.

(** The rule of C5 for instances of the base array class: not a candidate
    when another candidate of a related class exists. *)
Definition base_defers_to_related (args : list pyobj) : Prop :=
  ∀ r x c, resolveCandidates args = Ok r → x ∈ args →
           type_of x = ndarray_t →
           c ∈ r → c ≠ x → related (type_of c) ndarray_t → x ∉ r.

(** What holds of the ordering [r] computed for [args]. *)
Definition candidate_ordering (args r : list pyobj) : Prop :=
  (* no two entries share a class *)
  NoDup (type_of <$> r) ∧
  (* every capable class among the arguments has its entry *)
  (∀ x, x ∈ args → has_array_function (type_of x) = true →
        type_of x ∈ type_of <$> r) ∧
  (* an entry is the first argument of its class, and the class is capable *)
  (∀ c, c ∈ r →
        has_array_function (type_of c) = true ∧
        ∃ pre post, args = pre ++ c :: post ∧ type_of c ∉ type_of <$> pre) ∧
  (* a strict subclass stands before its ancestor *)
  (∀ i j x y, r !! i = Some x → r !! j = Some y →
              strict_subclass (type_of x) (type_of y) → i < j) ∧
  (* an entry none of whose ancestors was seen before it stands after all
     entries seen before it *)
  (∀ pre y post x,
     args = pre ++ y :: post → y ∈ r → type_of y ∉ type_of <$> pre →
     (∀ z, z ∈ pre → has_array_function (type_of z) = true →
           issubclass (type_of y) (type_of z) = false) →
     x ∈ r → x ∈ pre → precedes r x y).

(** Where the scan puts an argument.  For every argument [y], with [p]
    the ordering of the arguments before it: [y] changes nothing when its
    class lacks the hook or was seen before;
    otherwise it is put right before the first entry of [p] whose class is
    an ancestor of its own, and at the end when there is none. *)
Definition placed_before_first_ancestor (args : list pyobj) : Prop :=
  ∀ pre y post,
    args = pre ++ y :: post →
    ∃ p, resolveCandidates pre = Ok p ∧
         (¬ new_type p y → resolveCandidates (pre ++ [y]) = Ok p) ∧
         (new_type p y →
          ∃ l1 l2,
            p = l1 ++ l2 ∧
            resolveCandidates (pre ++ [y]) = Ok (l1 ++ y :: l2) ∧
            Forall (λ x, issubclass (type_of y) (type_of x) = false) l1 ∧
            (∀ z, head l2 = Some z →
                  issubclass (type_of y) (type_of z) = true)).

(** [_return_not_implemented]. *)
Definition return_not_implemented
    : pyobj → call → list pytype → list pyobj → hook_result :=
  λ _ _ _ _, Declined.

Definition MyArray : pytype := PyClass "MyArray" true PyObject.
Definition my_array : pyobj := mk_obj 9 MyArray.
Definition my_func : call := {| call_module := "my"; call_name := "func" |}.

(** ** The duck array of [_new_duck_type_and_implements]

    [HANDLED_FUNCTIONS] maps a dispatched function to its implementation.
    A dictionary tells functions apart by identity, not by module and name;
    an implementation is known here by what it returns on the positional
    arguments. *)

Record pyfunction : Type := mk_function {
  function_id : nat;       (* the identity of the function object *)
  function_call : call     (* its __module__ and __name__ *)
}.

Abbreviation handled_t := (gmap nat (list pyobj → hook_result)).

(** [MyArray.__array_function__(self, func, types, args, kwargs)]. *)
Definition duck_array_function (HANDLED_FUNCTIONS : handled_t) (self : pyobj)
    (func : pyfunction) (types : list pytype) (args : list pyobj)
    : hook_result :=
  if bool_decide (HANDLED_FUNCTIONS !! function_id func = None) then Declined
  else if negb (forallb (λ t, issubclass t MyArray) types) then Declined
  else match HANDLED_FUNCTIONS !! function_id func with
       | Some implementation => implementation args
       | None => Raised (KeyError (call_name (function_call func)))
       end.

(** [implements(numpy_function)(func)]: the registry afterwards, and what
    the decorator returns. *)
Definition implements (numpy_function : pyfunction)
    (func : list pyobj → hook_result) (HANDLED_FUNCTIONS : handled_t)
    : handled_t * (list pyobj → hook_result) :=
  (<[function_id numpy_function := func]> HANDLED_FUNCTIONS, func).

(** The function [func] of [test_not_implemented], and another function
    object of the same module and name. *)
Definition my_function : pyfunction := mk_function 0 my_func.
Definition my_function' : pyfunction := mk_function 1 my_func.



(** The first argument of every capable class not in [seen], in the order
    of the arguments. *)
Fixpoint first_capable (seen : list pytype) (args : list pyobj) : list pyobj :=
  match args with
  | [] => []
  | x :: rest =>
      if has_array_function (type_of x)
         && negb (bool_decide (type_of x ∈ seen))
      then x :: first_capable (type_of x :: seen) rest
      else first_capable seen rest
  end.

End Overrides.

(** * Facts about [stride_tricks] *)

Module StrideTricksFacts.

Import StrideTricks.

(** ** The monad: equations *)

Lemma bind_ret {A B} (a : A) (f : A → M B) : ret a ≫= f = f a.
Proof. unfold mbind, M_bind, bind, ret. by destruct (f a). Qed.

Lemma bind_raise {A B} (e : exn) (f : A → M B) : raise e ≫= f = raise e.
Proof. reflexivity. Qed.

Lemma bind_run {A B} (l : list event) (a : A) (f : A → M B) l' r :
  f a = (l', r) → (l, Return a) ≫= f = (l ++ l', r).
Proof. intros H. unfold mbind, M_bind, bind. by rewrite H. Qed.

Lemma bind_emit {B} (e : event) (k : M B) :
  (emit e ;; k) = (e :: k.1, k.2).
Proof. unfold mbind, M_bind, bind, emit. by destruct k. Qed.

(** A loop whose body returns without touching the log, with invariant
    [P]. *)
Lemma for_each_inv {A St} (P : nat → St → Prop) (xs : list A)
    (body : A → St → M St) (k : nat) (s0 : St) :
  P k s0 →
  (∀ i x s, xs !! i = Some x → P (k + i) s →
     ∃ s', body x s = ret s' ∧ P (S (k + i)) s') →
  ∃ s', for_each xs body s0 = ret s' ∧ P (k + length xs) s'.
Proof.
  revert k s0. induction xs as [|x xs IH]; intros k s0 H0 Hstep; simpl.
  - exists s0. by rewrite Nat.add_0_r.
  - destruct (Hstep 0 x s0) as (s1 & Hb & H1); [done | by rewrite Nat.add_0_r |].
    rewrite Nat.add_0_r in H1.
    destruct (IH (S k) s1 H1) as (s' & Hf & H').
    { intros i y s Hy HP.
      replace (S k + i) with (k + S i) in * by lia. by apply Hstep. }
    exists s'. rewrite Hb, bind_ret. split; [done|].
    by replace (k + S (length xs)) with (S k + length xs) by lia.
Qed.

Lemma for_range_inv {St} (P : nat → St → Prop) (n : nat)
    (body : nat → St → M St) (s0 : St) :
  P 0 s0 →
  (∀ i s, i < n → P i s → ∃ s', body i s = ret s' ∧ P (S i) s') →
  ∃ s', for_range n body s0 = ret s' ∧ P n s'.
Proof.
  intros H0 Hstep. unfold for_range.
  destruct (for_each_inv P (seq 0 n) body 0 s0 H0) as (s' & Hf & H').
  - intros i x s Hx HP. apply lookup_seq in Hx as [-> Hi]. by apply Hstep.
  - exists s'. by rewrite length_seq in H'.
Qed.

(** A loop that raises in its iteration [k], the earlier ones having
    returned. *)
Lemma for_range_raise {St} (P : nat → St → Prop) (n k : nat)
    (body : nat → St → M St) (s0 : St) (e : exn) :
  k < n → P 0 s0 →
  (∀ i s, i < k → P i s → ∃ s', body i s = ret s' ∧ P (S i) s') →
  (∀ s, P k s → body k s = raise e) →
  for_range n body s0 = raise e.
Proof.
  intros Hk H0 Hstep Hraise. unfold for_range.
  replace n with (k + S (n - S k)) by lia.
  rewrite seq_app. simpl.
  generalize (n - S k). intros m.
  assert (∀ xs ys j s, P j s → j + length xs = k →
            xs = seq j (length xs) →
            for_each (xs ++ k :: ys) body s = raise e) as Hgen.
  { induction xs as [|x xs IH]; intros ys j s HP Hlen Hxs; simpl in *.
    - assert (j = k) as -> by lia. by rewrite (Hraise s HP).
    - injection Hxs as -> Hxs.
      destruct (Hstep j s) as (s1 & Hb & H1); [lia | done |].
      rewrite Hb, bind_ret. apply (IH ys (S j)); [done | lia | done]. }
  apply (Hgen (seq 0 k) _ 0 s0 H0); by rewrite length_seq.
Qed.

(** A comprehension whose function returns on every element. *)
Lemma comprehension_returns {A B} (R : A → B → Prop) (Q : event → Prop)
    (f : A → M B) (xs : list A) :
  (∀ x, x ∈ xs → ∃ l y, f x = (l, Return y) ∧ R x y ∧ Forall Q l) →
  ∃ l ys, comprehension f xs = (l, Return ys) ∧ Forall2 R xs ys ∧ Forall Q l.
Proof.
  induction xs as [|x xs IH]; intros Hf; simpl.
  - exists [], []. by repeat split.
  - destruct (Hf x) as (l & y & Hx & HR & HQ); [by left|].
    destruct IH as (l' & ys & Hxs & HRs & HQs).
    { intros z Hz. apply Hf. by right. }
    exists (l ++ l' ++ []), (y :: ys). split; [|split].
    + rewrite Hx. apply bind_run. rewrite Hxs. by apply bind_run.
    + by constructor.
    + rewrite app_nil_r. by apply Forall_app.
Qed.

Lemma comprehension_pure {A B} (g : A → B) (f : A → M B) (xs : list A) :
  (∀ x, x ∈ xs → f x = ret (g x)) →
  comprehension f xs = ret (g <$> xs).
Proof.
  induction xs as [|x xs IH]; intros Hf; simpl; [done|].
  rewrite (Hf x) by (by left). rewrite bind_ret.
  rewrite IH by (intros z Hz; apply Hf; by right).
  by rewrite bind_ret.
Qed.

(** *** Lengths of one axis *)

Lemma common_length_all_ones ls :
  Forall (λ l, l = 1%Z) ls → common_length ls = 1%Z.
Proof.
  intros H. unfold common_length.
  replace (filter (λ l, l ≠ 1%Z) ls) with (@nil Z); [done|].
  symmetry. induction H as [|l ls -> _ IH]; [done|].
  rewrite filter_cons_False; [done | by intros []].
Qed.

Lemma common_length_found ls c :
  c ∈ ls → c ≠ 1%Z → Forall (λ l, l = c ∨ l = 1%Z) ls → common_length ls = c.
Proof.
  intros Hin Hc H. unfold common_length.
  induction H as [|l ls Hl _ IH]; [by apply elem_of_nil in Hin|].
  destruct (decide (l = 1%Z)) as [->|Hne].
  - rewrite filter_cons_False by (by intros []).
    apply IH. apply elem_of_cons in Hin as [->|]; done.
  - rewrite filter_cons_True by done. simpl. by destruct Hl.
Qed.

Lemma compatible_lengths_common ls :
  compatible_lengths ls ↔ Forall (λ l, l = common_length ls ∨ l = 1%Z) ls.
Proof.
  split; [|intros H; by exists (common_length ls)].
  intros [c H].
  destruct (decide (c ∈ ls ∧ c ≠ 1%Z)) as [[Hin Hc]|Hno].
  - by rewrite (common_length_found ls c).
  - apply Forall_forall. intros l Hl. right.
    rewrite Forall_forall in H. destruct (H l Hl) as [->|]; [|done].
    destruct (decide (c = 1%Z)); [done|]. by destruct Hno.
Qed.

#[global] Instance compatible_lengths_dec ls : Decision (compatible_lengths ls).
Proof.
  refine (cast_if (decide (Forall (λ l, l = common_length ls ∨ l = 1%Z) ls)));
    by rewrite compatible_lengths_common.
Defined.

#[global] Instance broadcastable_dec shapes : Decision (broadcastable shapes).
Proof. unfold broadcastable. apply _. Defined.

Lemma elem_of_unique_of ls x : x ∈ unique_of ls ↔ x ∈ ls ∨ x = 1%Z.
Proof.
  unfold unique_of. rewrite elem_of_list_to_set, elem_of_app.
  by rewrite list_elem_of_singleton.
Qed.

Lemma unique_of_compatible ls :
  compatible_lengths ls → size (unique_of ls) ≤ 2.
Proof.
  intros [c H]. rewrite Forall_forall in H.
  transitivity (size ({[1%Z]} ∪ {[c]} : gset Z)).
  - apply subseteq_size. intros x Hx.
    apply elem_of_unique_of in Hx as [Hx| ->]; [|set_solver].
    destruct (H x Hx) as [->| ->]; set_solver.
  - rewrite size_union_alt, size_singleton.
    pose proof (subseteq_size ({[c]} ∖ {[1%Z]} : gset Z) {[c]}) as Hs.
    rewrite size_singleton in Hs. specialize (Hs ltac:(set_solver)). lia.
Qed.

Lemma unique_of_three ls a b :
  a ∈ ls → b ∈ ls → a ≠ b → a ≠ 1%Z → b ≠ 1%Z → 2 < size (unique_of ls).
Proof.
  intros Ha Hb Hab Ha1 Hb1.
  apply Nat.lt_le_trans with (size ({[1%Z]} ∪ ({[a]} ∪ {[b]}) : gset Z)).
  - rewrite !size_union by set_solver. rewrite !size_singleton. lia.
  - apply subseteq_size. intros x Hx. apply elem_of_unique_of. set_solver.
Qed.

Lemma unique_of_incompatible ls :
  ¬ compatible_lengths ls → 2 < size (unique_of ls).
Proof.
  intros Hno.
  destruct (decide (Forall (λ l, l = 1%Z) ls)) as [Hall|Hsome].
  { destruct Hno. exists 1%Z. eapply Forall_impl; [done|]. naive_solver. }
  apply not_Forall_Exists in Hsome; [|apply _].
  apply Exists_exists in Hsome as (a & Ha & Ha1). simpl in Ha1.
  destruct (decide (Forall (λ l, l = a ∨ l = 1%Z) ls)) as [Hall|Hsome].
  { destruct Hno. by exists a. }
  apply not_Forall_Exists in Hsome; [|apply _].
  apply Exists_exists in Hsome as (b & Hb & Hb1). simpl in Hb1.
  apply (unique_of_three ls a b); naive_solver.
Qed.

Lemma unique_of_two ls :
  size (unique_of ls) = 2 →
  unique_of ls ∖ {[1%Z]} = {[common_length ls]} ∧ common_length ls ≠ 1%Z.
Proof.
  intros Hsz.
  assert (1%Z ∈ unique_of ls) as H1 by (apply elem_of_unique_of; by right).
  assert (size (unique_of ls ∖ {[1%Z]}) = 1) as Hd.
  { rewrite size_difference by set_solver. rewrite size_singleton. lia. }
  apply size_1_elem_of in Hd as [c Hc]. apply leibniz_equiv in Hc.
  assert (c ∈ unique_of ls ∖ {[1%Z]}) as Hin by (rewrite Hc; set_solver).
  apply elem_of_difference in Hin as [Hin Hc1].
  rewrite elem_of_singleton in Hc1.
  apply elem_of_unique_of in Hin as [Hin|]; [|done].
  assert (common_length ls = c) as ->; [|done].
  apply common_length_found; [done..|].
  apply Forall_forall. intros l Hl.
  destruct (decide (l = 1%Z)); [by right|left].
  assert (l ∈ unique_of ls ∖ {[1%Z]}) as Hl'.
  { apply elem_of_difference. split; [apply elem_of_unique_of; by left|].
    by rewrite elem_of_singleton. }
  rewrite Hc in Hl'. by apply elem_of_singleton in Hl'.
Qed.

Lemma unique_of_one ls :
  size (unique_of ls) < 2 → Forall (λ l, l = 1%Z) ls.
Proof.
  intros Hsz.
  assert (1%Z ∈ unique_of ls) as H1 by (apply elem_of_unique_of; by right).
  apply Forall_forall. intros l Hl.
  assert (l ∈ unique_of ls) as Hl' by (apply elem_of_unique_of; by left).
  destruct (decide (size (unique_of ls) = 1)) as [Hs|Hs].
  - by apply (size_singleton_inv _ _ _ Hs).
  - assert (size (unique_of ls) = 0) as Hz by lia.
    apply size_empty_inv in Hz. set_solver.
Qed.

(** *** Indexing *)

Lemma getitem_Some {A} (l : list A) i a : l !! i = Some a → getitem l i = ret a.
Proof. intros H. unfold getitem. by rewrite H. Qed.

Lemma setitem_lt {A} (l : list A) i v :
  i < length l → setitem l i v = ret (<[i:=v]> l).
Proof. intros H. unfold setitem. by rewrite bool_decide_eq_true_2. Qed.

Lemma lookup_insert_row {A} (l : list A) i j v :
  i < length l →
  <[i:=v]> l !! j = if decide (j = i) then Some v else l !! j.
Proof.
  intros Hi. destruct (decide (j = i)) as [->|Hne].
  - by apply list_lookup_insert_eq.
  - by apply list_lookup_insert_ne.
Qed.

(** A list that agrees with [new] below [n = length old] and with [old]
    from there on is [new]. *)
Lemma list_eq_switch {A} (l old new : list A) :
  length new = length old →
  (∀ j, l !! j = if decide (j < length old) then new !! j else old !! j) →
  l = new.
Proof.
  intros Hlen H. apply list_eq. intros j. rewrite H.
  destruct (decide (j < length old)); [done|].
  rewrite !lookup_ge_None_2; [done | lia..].
Qed.

(** *** The padding loop (lines 105-109) *)

Lemma pad_loop (nd : nat) (shapes strides : list (list Z)) :
  length strides = length shapes →
  for_range (length shapes) (pad_body nd (length <$> shapes)) (shapes, strides)
  = ret (right_align nd 1%Z <$> shapes, zip_with (pad_strides nd) shapes strides).
Proof.
  intros Hlen.
  set (n := length shapes).
  set (shapes' := right_align nd 1%Z <$> shapes).
  set (strides' := zip_with (pad_strides nd) shapes strides).
  assert (length shapes' = n) as Hn1 by (unfold shapes'; by rewrite length_fmap).
  assert (length strides' = n) as Hn2.
  { unfold strides'. rewrite length_zip_with. lia. }
  pose (P := λ (i : nat) (st : list (list Z) * list (list Z)),
    length st.1 = n ∧ length st.2 = n ∧
    (∀ j, st.1 !! j = if decide (j < i) then shapes' !! j else shapes !! j) ∧
    (∀ j, st.2 !! j = if decide (j < i) then strides' !! j else strides !! j)).
  destruct (for_range_inv P n (pad_body nd (length <$> shapes)) (shapes, strides))
    as ([sh st] & Hrun & _ & _ & Hsh & Hst).
  { unfold P; split_and!; [done..| |]; intros j; simpl; by destruct (decide (j < 0)); [lia|]. }
  { intros i [sh st] Hi (Hl1 & Hl2 & Hsh & Hst). simpl in *.
    destruct (lookup_lt_is_Some_2 shapes i Hi) as [s Hs].
    destruct (lookup_lt_is_Some_2 strides i ltac:(lia)) as [t Ht].
    assert (shapes' !! i = Some (right_align nd 1%Z s)) as Hs'.
    { unfold shapes'. by rewrite list_lookup_fmap, Hs. }
    assert (strides' !! i = Some (pad_strides nd s t)) as Ht'.
    { unfold strides'. by rewrite lookup_zip_with, Hs, Ht. }
    assert (sh !! i = Some s) as Hshi.
    { rewrite Hsh. by destruct (decide (i < i)); [lia|]. }
    assert (st !! i = Some t) as Hsti.
    { rewrite Hst. by destruct (decide (i < i)); [lia|]. }
    unfold pad_body.
    rewrite (getitem_Some _ i (length s)), bind_ret
      by (by rewrite list_lookup_fmap, Hs).
    case_bool_decide as Hdiff.
    - rewrite (getitem_Some _ _ _ Hshi), bind_ret.
      rewrite setitem_lt, bind_ret by lia.
      rewrite (getitem_Some _ _ _ Hsti), bind_ret.
      rewrite setitem_lt, bind_ret by lia.
      eexists. split; [done|]. unfold P. simpl.
      rewrite !length_insert. split_and!; [done..| |]; intros j.
      + rewrite lookup_insert_row by lia. rewrite Hsh.
        repeat case_decide; try lia; subst; done.
      + rewrite lookup_insert_row by lia. rewrite Hst.
        repeat case_decide; try lia; subst; done.
    - assert (nd - length s = 0) as Hz by lia.
      unfold right_align in Hs'. unfold pad_strides in Ht'.
      rewrite Hz in Hs', Ht'. simpl in Hs', Ht'.
      eexists. split; [done|]. unfold P. simpl.
      split_and!; [done..| |]; intros j.
      + rewrite Hsh. repeat case_decide; try lia; try done.
        assert (j = i) as -> by lia. by rewrite Hs'.
      + rewrite Hst. repeat case_decide; try lia; try done.
        assert (j = i) as -> by lia. by rewrite Ht'. }
  rewrite Hrun. simpl in Hsh, Hst.
  rewrite (list_eq_switch sh shapes shapes') by done.
  rewrite (list_eq_switch st strides strides'); [done | lia |].
  by rewrite Hlen.
Qed.

(** *** The stretching loop (lines 129-132) *)

Lemma stretch_loop (axis : nat) (c : Z) (shapes strides : list (list Z)) :
  length strides = length shapes →
  Forall (λ s, axis < length s) shapes →
  Forall (λ t, axis < length t) strides →
  for_range (length shapes) (stretch_body axis c) (shapes, strides)
  = ret (stretch_shape axis c <$> shapes,
         zip_with (stretch_strides axis) shapes strides).
Proof.
  intros Hlen Hsh Hst.
  set (n := length shapes).
  set (shapes' := stretch_shape axis c <$> shapes).
  set (strides' := zip_with (stretch_strides axis) shapes strides).
  assert (length shapes' = n) as Hn1 by (unfold shapes'; by rewrite length_fmap).
  assert (length strides' = n) as Hn2.
  { unfold strides'. rewrite length_zip_with. lia. }
  pose (P := λ (i : nat) (st : list (list Z) * list (list Z)),
    length st.1 = n ∧ length st.2 = n ∧
    (∀ j, st.1 !! j = if decide (j < i) then shapes' !! j else shapes !! j) ∧
    (∀ j, st.2 !! j = if decide (j < i) then strides' !! j else strides !! j)).
  destruct (for_range_inv P n (stretch_body axis c) (shapes, strides))
    as ([sh st] & Hrun & _ & _ & Hsh' & Hst').
  { unfold P; split_and!; [done..| |]; intros j; simpl;
      by destruct (decide (j < 0)); [lia|]. }
  { intros i [sh st] Hi (Hl1 & Hl2 & Hsh' & Hst'). simpl in *.
    destruct (lookup_lt_is_Some_2 shapes i Hi) as [s Hs].
    destruct (lookup_lt_is_Some_2 strides i ltac:(lia)) as [t Ht].
    pose proof (Forall_lookup_1 _ _ _ _ Hsh Hs) as Hs_ax.
    pose proof (Forall_lookup_1 _ _ _ _ Hst Ht) as Ht_ax.
    simpl in Hs_ax, Ht_ax.
    destruct (lookup_lt_is_Some_2 s axis Hs_ax) as [l Hl].
    assert (shapes' !! i = Some (stretch_shape axis c s)) as Hs'.
    { unfold shapes'. by rewrite list_lookup_fmap, Hs. }
    assert (strides' !! i = Some (stretch_strides axis s t)) as Ht'.
    { unfold strides'. by rewrite lookup_zip_with, Hs, Ht. }
    assert (sh !! i = Some s) as Hshi.
    { rewrite Hsh'. by destruct (decide (i < i)); [lia|]. }
    assert (st !! i = Some t) as Hsti.
    { rewrite Hst'. by destruct (decide (i < i)); [lia|]. }
    unfold stretch_body.
    rewrite (getitem_Some _ _ _ Hshi), bind_ret.
    rewrite (getitem_Some _ _ _ Hl), bind_ret.
    unfold stretch_shape in Hs'. unfold stretch_strides in Ht'.
    case_bool_decide as Hone.
    - subst l. rewrite decide_True in Hs', Ht' by done.
      rewrite setitem_lt, bind_ret by lia.
      rewrite setitem_lt, bind_ret by lia.
      rewrite (getitem_Some _ _ _ Hsti), bind_ret.
      rewrite setitem_lt, bind_ret by lia.
      rewrite setitem_lt, bind_ret by lia.
      eexists. split; [done|]. unfold P. simpl.
      rewrite !length_insert. split_and!; [done..| |]; intros j.
      + rewrite lookup_insert_row by lia. rewrite Hsh'.
        repeat case_decide; try lia; subst; done.
      + rewrite lookup_insert_row by lia. rewrite Hst'.
        repeat case_decide; try lia; subst; done.
    - rewrite decide_False in Hs', Ht' by congruence.
      eexists. split; [done|]. unfold P. simpl.
      split_and!; [done..| |]; intros j.
      + rewrite Hsh'. repeat case_decide; try lia; try done.
        assert (j = i) as -> by lia. by rewrite Hs'.
      + rewrite Hst'. repeat case_decide; try lia; try done.
        assert (j = i) as -> by lia. by rewrite Ht'. }
  rewrite Hrun. simpl in Hsh', Hst'.
  rewrite (list_eq_switch sh shapes shapes') by done.
  rewrite (list_eq_switch st strides strides'); [done | lia |].
  by rewrite Hlen.
Qed.

(** *** The loop over the axes (lines 112-136) *)

Lemma shape_upto_0 cs p : shape_upto cs 0 p = p.
Proof.
  apply list_eq. intros j. unfold shape_upto. rewrite list_lookup_imap.
  destruct (p !! j) as [l|]; [|done].
  change (Some (if decide (j < 0) then cs j else l) = Some l).
  by rewrite decide_False by lia.
Qed.

Lemma strides_upto_0 cs p t : strides_upto cs 0 p t = t.
Proof.
  apply list_eq. intros j. unfold strides_upto. rewrite list_lookup_imap.
  destruct (t !! j) as [v|]; [|done]. cbn [fmap option_fmap option_map].
  by rewrite decide_False by lia.
Qed.

Lemma state_upto_0 cs ps ts :
  length ts = length ps → state_upto cs 0 ps ts = (ps, ts, []).
Proof.
  intros Hlen. unfold state_upto. simpl. f_equal. f_equal.
  - rewrite <- (list_fmap_id ps) at 2. apply list_fmap_ext.
    intros ???. apply shape_upto_0.
  - revert ts Hlen. induction ps as [|p ps IH]; intros [|t ts] Hlen;
      simpl in *; try done.
    rewrite strides_upto_0, IH; [done | lia].
Qed.

Lemma shape_upto_lookup cs k p j :
  shape_upto cs k p !! j = (λ l, if decide (j < k) then cs j else l) <$> p !! j.
Proof. unfold shape_upto. by rewrite list_lookup_imap. Qed.

Lemma shape_upto_length cs k p : length (shape_upto cs k p) = length p.
Proof. unfold shape_upto. by rewrite length_imap. Qed.

Lemma strides_upto_length cs k p t : length (strides_upto cs k p t) = length t.
Proof. unfold strides_upto. by rewrite length_imap. Qed.

(** One row, one more axis: the axis is stretched. *)
Lemma shape_upto_stretch cs k p l :
  p !! k = Some l → l = cs k ∨ l = 1%Z →
  stretch_shape k (cs k) (shape_upto cs k p) = shape_upto cs (S k) p.
Proof.
  intros Hl Hc. unfold stretch_shape.
  assert (k < length p) as Hk by (by eapply lookup_lt_Some).
  rewrite shape_upto_lookup, Hl. simpl.
  rewrite (decide_False (P := k < k)) by lia.
  apply list_eq. intros j.
  case_decide as Hone.
  - rewrite lookup_insert_row by (by rewrite shape_upto_length).
    rewrite !shape_upto_lookup.
    destruct (decide (j = k)) as [->|Hne].
    + rewrite Hl. simpl. by rewrite decide_True by lia.
    + destruct (p !! j); simpl; [|done].
      repeat case_decide; try lia; done.
  - rewrite !shape_upto_lookup.
    destruct (decide (j = k)) as [->|Hne].
    + rewrite Hl. simpl. rewrite decide_False, decide_True by lia.
      destruct Hc; congruence.
    + destruct (p !! j); simpl; [|done].
      repeat case_decide; try lia; done.
Qed.

Lemma strides_upto_stretch cs k p t :
  k < length p → k < length t → cs k ≠ 1%Z →
  stretch_strides k (shape_upto cs k p) (strides_upto cs k p t)
  = strides_upto cs (S k) p t.
Proof.
  intros Hkp Hkt Hc. unfold stretch_strides.
  destruct (lookup_lt_is_Some_2 p k Hkp) as [l Hl].
  destruct (lookup_lt_is_Some_2 t k Hkt) as [v Hv].
  rewrite shape_upto_lookup, Hl. simpl.
  rewrite (decide_False (P := k < k)) by lia.
  apply list_eq. intros j. unfold strides_upto.
  case_decide as Hone.
  - rewrite lookup_insert_row by (by rewrite length_imap).
    rewrite !list_lookup_imap.
    destruct (decide (j = k)) as [->|Hne].
    + rewrite Hv. simpl. rewrite decide_True; [done|].
      split_and!; [lia | congruence | done].
    + destruct (t !! j); simpl; [|done].
      f_equal. apply decide_ext. intuition lia.
  - rewrite !list_lookup_imap.
    destruct (decide (j = k)) as [->|Hne].
    + rewrite Hv. simpl. rewrite !decide_False; [done| |]; intros (? & ? & ?);
        [congruence | lia].
    + destruct (t !! j); simpl; [|done].
      f_equal. apply decide_ext. intuition lia.
Qed.

(** One row, one more axis: every operand has length 1 there. *)
Lemma shape_upto_same cs k p :
  p !! k = Some (cs k) → shape_upto cs k p = shape_upto cs (S k) p.
Proof.
  intros Hl. apply list_eq. intros j. rewrite !shape_upto_lookup.
  destruct (decide (j = k)) as [->|Hne].
  - rewrite Hl. simpl. by rewrite decide_False, decide_True by lia.
  - destruct (p !! j); simpl; [|done]. repeat case_decide; try lia; done.
Qed.

Lemma strides_upto_same cs k p t :
  cs k = 1%Z → strides_upto cs k p t = strides_upto cs (S k) p t.
Proof.
  intros Hc. apply list_eq. intros j. unfold strides_upto.
  rewrite !list_lookup_imap. destruct (t !! j); simpl; [|done].
  f_equal. apply decide_ext.
  destruct (decide (j = k)) as [->|]; intuition (try lia; try congruence).
Qed.

Lemma zip_with_rows {A B C D} (F : D → C → C) (g : A → D) (h h' : A → B → C)
    (ps : list A) (ts : list B) :
  (∀ i p t, ps !! i = Some p → ts !! i = Some t → F (g p) (h p t) = h' p t) →
  zip_with F (g <$> ps) (zip_with h ps ts) = zip_with h' ps ts.
Proof.
  intros H. apply list_eq. intros i.
  rewrite !lookup_zip_with, list_lookup_fmap.
  destruct (ps !! i) as [p|] eqn:Hp; [|done].
  destruct (ts !! i) as [t|] eqn:Ht; [|done].
  simpl. f_equal. by apply (H i).
Qed.

Lemma zip_with_ext_rows {A B C} (h h' : A → B → C) (ps : list A) (ts : list B) :
  (∀ i p t, ps !! i = Some p → ts !! i = Some t → h p t = h' p t) →
  zip_with h ps ts = zip_with h' ps ts.
Proof.
  intros H. apply list_eq. intros i. rewrite !lookup_zip_with.
  destruct (ps !! i) as [p|] eqn:Hp; [|done].
  destruct (ts !! i) as [t|] eqn:Ht; [|done].
  simpl. f_equal. by apply (H i).
Qed.

Section AxisLoop.

Variables (ps ts : list (list Z)) (nd : nat).
Hypothesis Hlen : length ts = length ps.
Hypothesis Hps : Forall (λ p, length p = nd) ps.
Hypothesis Hts : Forall (λ t, length t = nd) ts.

Abbreviation cs := (axis_common ps).

Lemma row_entry i p k : ps !! i = Some p → k < nd → ∃ l, p !! k = Some l.
Proof.
  intros Hp Hk. apply lookup_lt_is_Some_2.
  by rewrite (Forall_lookup_1 _ _ _ _ Hps Hp).
Qed.

Lemma row_entry_column i p k l :
  ps !! i = Some p → p !! k = Some l → l ∈ column k ps.
Proof.
  intros Hp Hl. unfold column. apply list_elem_of_fmap.
  exists p. rewrite Hl. split; [done|]. by eapply list_elem_of_lookup_2.
Qed.

Lemma lengths_of_state k :
  k < nd →
  comprehension (λ s, getitem s k) (shape_upto cs k <$> ps) = ret (column k ps).
Proof.
  intros Hk.
  rewrite (comprehension_pure (λ s, default 1%Z (s !! k))).
  - unfold column. rewrite <- list_fmap_compose. f_equal.
    apply list_fmap_ext. intros i p Hp. simpl.
    rewrite shape_upto_lookup.
    destruct (row_entry i p k Hp Hk) as [l ->]. simpl.
    by rewrite decide_False by lia.
  - intros s Hs. apply list_elem_of_fmap in Hs as (p & -> & Hp).
    apply list_elem_of_lookup in Hp as [i Hp].
    destruct (row_entry i p k Hp Hk) as [l Hl].
    apply getitem_Some. rewrite shape_upto_lookup, Hl. simpl.
    by rewrite decide_False by lia.
Qed.

(** An iteration of the loop at a compatible axis. *)
Lemma axis_step k :
  k < nd → compatible_lengths (column k ps) →
  axis_body (length ps) k (state_upto cs k ps ts)
  = ret (state_upto cs (S k) ps ts).
Proof.
  intros Hk Hcompat. unfold axis_body, state_upto.
  rewrite lengths_of_state, bind_ret by done.
  fold (unique_of (column k ps)).
  pose proof (unique_of_compatible _ Hcompat) as Hle.
  apply compatible_lengths_common in Hcompat.
  rewrite Forall_forall in Hcompat.
  rewrite bool_decide_eq_false_2 by lia.
  rewrite seq_S, fmap_app. simpl.
  case_bool_decide as Htwo.
  - destruct (unique_of_two _ Htwo) as [Heq Hne].
    unfold set_remove. rewrite bool_decide_eq_true_2
      by (apply elem_of_unique_of; by right).
    rewrite bind_ret, Heq. unfold set_pop.
    rewrite elements_singleton, bind_ret.
    replace (length ps) with (length (shape_upto cs k <$> ps))
      by apply length_fmap.
    rewrite stretch_loop, bind_ret.
    + f_equal. f_equal. f_equal.
      * rewrite <- list_fmap_compose. apply list_fmap_ext. intros i p Hp. simpl.
        destruct (row_entry i p k Hp Hk) as [l Hl].
        apply (shape_upto_stretch cs _ _ l Hl).
        apply Hcompat. by eapply row_entry_column.
      * apply zip_with_rows. intros i p t Hp Ht.
        apply (strides_upto_stretch cs); [| |done].
        -- by rewrite (Forall_lookup_1 _ _ _ _ Hps Hp).
        -- by rewrite (Forall_lookup_1 _ _ _ _ Hts Ht).
    + rewrite length_zip_with, length_fmap. lia.
    + apply Forall_fmap, Forall_forall. intros p Hp. simpl.
      rewrite shape_upto_length.
      rewrite Forall_forall in Hps. by rewrite (Hps p Hp).
    + apply Forall_forall. intros t Ht.
      apply list_elem_of_lookup in Ht as [i Ht].
      apply lookup_zip_with_Some in Ht as (p & t' & -> & Hp & Ht).
      rewrite strides_upto_length.
      by rewrite (Forall_lookup_1 _ _ _ _ Hts Ht).
  - assert (cs k = 1%Z) as Hone.
    { apply common_length_all_ones, unique_of_one. lia. }
    fold (cs k). rewrite Hone. f_equal. f_equal. f_equal.
    + apply list_fmap_ext. intros i p Hp.
      destruct (row_entry i p k Hp Hk) as [l Hl].
      apply shape_upto_same. rewrite Hl, Hone. f_equal.
      assert (Forall (λ l, l = 1%Z) (column k ps)) as Hall
        by (apply unique_of_one; lia).
      rewrite Forall_forall in Hall. apply Hall. by eapply row_entry_column.
    + apply zip_with_ext_rows. intros i p t _ _. by apply strides_upto_same.
Qed.

(** An iteration of the loop at an axis that is not compatible. *)
Lemma axis_step_raise k :
  k < nd → ¬ compatible_lengths (column k ps) →
  axis_body (length ps) k (state_upto cs k ps ts)
  = raise (ValueError (shape_mismatch_msg k)).
Proof.
  intros Hk Hno. unfold axis_body, state_upto.
  rewrite lengths_of_state, bind_ret by done.
  fold (unique_of (column k ps)).
  by rewrite bool_decide_eq_true_2 by (by apply unique_of_incompatible).
Qed.

Lemma axis_loop_returns :
  (∀ k, k < nd → compatible_lengths (column k ps)) →
  for_range nd (axis_body (length ps)) (ps, ts, [])
  = ret (state_upto cs nd ps ts).
Proof.
  intros Hcompat.
  destruct (for_range_inv (λ k st, st = state_upto cs k ps ts) nd
              (axis_body (length ps)) (ps, ts, [])) as (st & Hrun & ->).
  - by rewrite state_upto_0.
  - intros k st Hk ->. eexists. split; [|done]. by apply axis_step, Hcompat.
  - done.
Qed.

Lemma axis_loop_raises k :
  k < nd →
  (∀ j, j < k → compatible_lengths (column j ps)) →
  ¬ compatible_lengths (column k ps) →
  for_range nd (axis_body (length ps)) (ps, ts, [])
  = raise (ValueError (shape_mismatch_msg k)).
Proof.
  intros Hk Hbefore Hno.
  apply (for_range_raise (λ k st, st = state_upto cs k ps ts) nd k); [done|..].
  - by rewrite state_upto_0.
  - intros j st Hj ->. eexists. split; [|done].
    apply axis_step; [lia | by apply Hbefore].
  - intros st ->. by apply axis_step_raise.
Qed.

End AxisLoop.

(** *** Coercion and view construction *)

Lemma array_finalize_case (af : pytype → option (ndarray → list Z → list Z)) t :
  (∃ hook, af t = Some hook) ∨ af t = None.
Proof. destruct (af t); eauto. Qed.

Lemma np_array_run x subok :
  np_array x subok = ([Ev_array (cls x) subok], Return (coerce subok x)).
Proof.
  unfold np_array, coerce. rewrite bind_emit.
  by destruct (subok || bool_decide (cls x = ndarray_t)).
Qed.

Lemma coerce_shape subok x : shape (coerce subok x) = shape x.
Proof. unfold coerce. by destruct (_ || _). Qed.

Lemma coerce_strides subok x : strides (coerce subok x) = strides x.
Proof. unfold coerce. by destruct (_ || _). Qed.

Lemma coerce_buffer subok x : buffer (coerce subok x) = buffer x.
Proof. unfold coerce. by destruct (_ || _). Qed.

Lemma coerce_base_class x : cls x = ndarray_t → coerce false x = x.
Proof.
  intros H. unfold coerce. by rewrite bool_decide_eq_true_2.
Qed.

Lemma coerce_subok x : coerce true x = x.
Proof. done. Qed.

Lemma coerce_all_run subok args :
  comprehension (λ _m, np_array _m subok) args
  = ((λ x, Ev_array (cls x) subok) <$> args, Return (coerce subok <$> args)).
Proof.
  induction args as [|x args IH]; simpl; [done|].
  rewrite np_array_run. erewrite bind_run; [done|].
  rewrite IH. erewrite bind_run; [|done]. by rewrite app_nil_r.
Qed.

Lemma coerce_dtype subok x : dtype_of (coerce subok x) = dtype_of x.
Proof. unfold coerce. by destruct (_ || _). Qed.

Lemma coerce_cls subok x :
  cls (coerce subok x) = if subok then cls x else ndarray_t.
Proof.
  unfold coerce. destruct subok; simpl; [done|].
  by case_bool_decide.
Qed.

Lemma coerce_contiguous subok x :
  c_contiguous (coerce subok x) = c_contiguous x.
Proof.
  unfold c_contiguous.
  by rewrite coerce_shape, coerce_strides, coerce_dtype.
Qed.

Lemma coerce_interface subok x :
  interface_of (coerce subok x) = interface_of x.
Proof.
  unfold interface_of.
  by rewrite coerce_contiguous, coerce_shape, coerce_strides, coerce_dtype,
    coerce_buffer.
Qed.

Lemma as_strided_closed af x osh ost subok :
  as_strided af x osh ost subok
  = (strided_log af x osh ost subok, Return (strided_view af x osh ost subok)).
Proof.
  unfold as_strided, strided_log, strided_view, base_view, strided_interface.
  rewrite np_array_run.
  pose proof (coerce_contiguous subok x) as Hc.
  pose proof (coerce_shape subok x) as Hsh.
  pose proof (coerce_strides subok x) as Hst.
  pose proof (coerce_dtype subok x) as Hdt.
  pose proof (coerce_buffer subok x) as Hbuf.
  set (x' := coerce subok x) in *.
  unfold np_asarray_interface, view_as, mbind, M_bind, bind, emit, ret,
    rebuild_dtype, set_dtype, interface_of.
  rewrite Hc, Hsh, Hst, Hdt, Hbuf.
  destruct (af (cls x')) as [hook|] eqn:Haf;
  destruct osh as [sh|], ost as [st|], (c_contiguous x); simpl;
    repeat case_bool_decide; repeat case_decide; simpl in *;
    rewrite ?Haf; simpl;
    try congruence; try done.
Qed.

Lemma as_strided_run af x osh st subok :
  ∃ l y, as_strided af x osh (Some st) subok = (l, Return y) ∧
         shape y = default (shape x) osh ∧
         strides y = st ∧
         buffer y = buffer x ∧
         cls y = cls (coerce subok x).
Proof. rewrite as_strided_closed. by eexists _, _. Qed.

(** *** The body of [broadcast_arrays] *)

Lemma dict_pop_subok o :
  dict_pop_default (kw_subok o) "subok" false = (default false o, ∅).
Proof.
  unfold dict_pop_default. destruct o as [b|]; simpl.
  - by rewrite lookup_singleton_eq, delete_singleton_eq.
  - by rewrite lookup_empty, delete_empty.
Qed.

Lemma py_max_run (ns : list nat) : ns ≠ [] → py_max ns = ret (max_list ns).
Proof.
  destruct ns as [|n ns]; [done|]. intros _. unfold py_max. f_equal. f_equal.
  simpl. revert n. induction ns as [|a ns IH]; intros n; simpl; [lia|].
  rewrite IH. lia.
Qed.

Lemma bind_prepend {A B} (l : list event) (a : A) (f : A → M B) :
  (l, Return a) ≫= f = prepend l (f a).
Proof. unfold mbind, M_bind, bind, prepend. by destruct (f a). Qed.

Lemma length_right_align nd fill v : length v ≤ nd → length (right_align nd fill v) = nd.
Proof.
  intros H. unfold right_align. rewrite length_app, length_replicate. lia.
Qed.

Lemma ndmax_le shapes s : s ∈ shapes → length s ≤ ndmax shapes.
Proof.
  intros H. apply max_list_elem_of_le. apply list_elem_of_fmap. by exists s.
Qed.

Lemma column_aligned shapes j :
  column j (right_align (ndmax shapes) 1%Z <$> shapes) = axis_lengths shapes j.
Proof. unfold column, axis_lengths. by rewrite <- list_fmap_compose. Qed.

Section Body.

Variable af : pytype → option (ndarray → list Z → list Z).
Variables (args : list ndarray) (o : option bool).

Let subok := default false o.
Let shapes := shape <$> args.
Let nd := ndmax shapes.
Let ps := right_align nd 1%Z <$> shapes.
Let ts := (λ x, right_align nd 0%Z (strides x)) <$> args.

(** The common case, lines 96-98. *)
Lemma broadcast_arrays_fast :
  size (list_to_set shapes : gset (list Z)) = 1 →
  broadcast_arrays af args (kw_subok o)
  = (coerce_events subok args, Return (coerce subok <$> args)).
Proof.
  intros Hone. unfold broadcast_arrays. rewrite dict_pop_subok.
  rewrite bool_decide_eq_false_2 by (by intros []).
  rewrite coerce_all_run, bind_prepend.
  rewrite <- list_fmap_compose.
  rewrite (list_fmap_ext (shape ∘ coerce (default false o)) shape args)
    by (intros; apply coerce_shape).
  fold shapes. rewrite bool_decide_eq_true_2 by done.
  unfold prepend, ret. simpl. by rewrite app_nil_r.
Qed.

(** The other case, lines 99-141, once the two loops that cannot fail have
    run. *)
Lemma broadcast_arrays_slow :
  size (list_to_set shapes : gset (list Z)) ≠ 1 →
  args ≠ [] → Forall wf_array args →
  broadcast_arrays af args (kw_subok o)
  = prepend (coerce_events subok args)
      ('(sh, st, common_shape) ←
          for_range nd (axis_body (length ps)) (ps, ts, []);
       comprehension (λ '(x, sh, st), as_strided af x (Some sh) (Some st) subok)
                     (zip3 (coerce subok <$> args) sh st)).
Proof.
  intros Hone Hne Hwf. unfold broadcast_arrays. rewrite dict_pop_subok.
  rewrite bool_decide_eq_false_2 by (by intros []).
  rewrite coerce_all_run, bind_prepend. fold subok. f_equal.
  assert (shape <$> (coerce subok <$> args) = shapes) as ->.
  { rewrite <- list_fmap_compose. apply list_fmap_ext.
    intros; apply coerce_shape. }
  assert (strides <$> (coerce subok <$> args) = strides <$> args) as ->.
  { rewrite <- list_fmap_compose. apply list_fmap_ext.
    intros; apply coerce_strides. }
  rewrite bool_decide_eq_false_2 by done.
  rewrite py_max_run by (unfold shapes; by destruct args).
  rewrite bind_ret. fold (ndmax shapes). fold nd.
  replace (length (coerce subok <$> args)) with (length shapes)
    by (unfold shapes; by rewrite !length_fmap).
  rewrite pad_loop by (unfold shapes; by rewrite !length_fmap).
  rewrite bind_ret. fold ps.
  replace (zip_with (pad_strides nd) shapes (strides <$> args)) with ts.
  { unfold ps. by rewrite length_fmap. }
  unfold ts, shapes. apply list_eq. intros i.
  rewrite lookup_zip_with, !list_lookup_fmap.
  destruct (args !! i) as [x|] eqn:Hx; [|done]. simpl.
  unfold pad_strides, right_align.
  by rewrite (Forall_lookup_1 _ _ _ _ Hwf Hx).
Qed.

Lemma padded_shapes_length : Forall (λ p, length p = nd) ps.
Proof.
  unfold ps. apply Forall_fmap, Forall_forall. intros s Hs. simpl.
  apply length_right_align. by apply ndmax_le.
Qed.

Lemma padded_strides_length :
  Forall wf_array args → Forall (λ t, length t = nd) ts.
Proof.
  intros Hwf. unfold ts. apply Forall_fmap, Forall_forall. intros x Hx. simpl.
  rewrite Forall_forall in Hwf.
  apply length_right_align. rewrite (Hwf x Hx).
  apply ndmax_le. apply list_elem_of_fmap. by exists x.
Qed.

End Body.

(** ** The views [broadcast_arrays] returns *)

Lemma size_one_all_equal (shapes : list (list Z)) :
  size (list_to_set shapes : gset (list Z)) = 1 →
  ∃ s, shapes ≠ [] ∧ Forall (λ s', s' = s) shapes.
Proof.
  intros Hone. destruct (size_1_elem_of _ Hone) as [s Hs]. exists s. split.
  - intros ->. by vm_compute in Hone.
  - apply Forall_forall. intros s' Hin.
    assert (s' ∈ (list_to_set shapes : gset (list Z))) as H
      by (by apply elem_of_list_to_set).
    rewrite Hs in H. by apply elem_of_singleton in H.
Qed.

Lemma all_equal_size_one (shapes : list (list Z)) s :
  shapes ≠ [] → Forall (λ s', s' = s) shapes →
  size (list_to_set shapes : gset (list Z)) = 1.
Proof.
  intros Hne Hall.
  assert ((list_to_set shapes : gset (list Z)) = {[s]}) as ->;
    [|apply size_singleton].
  apply set_eq. intros s'. rewrite elem_of_list_to_set, elem_of_singleton.
  rewrite Forall_forall in Hall. split; [by apply Hall|].
  intros ->. destruct shapes as [|s0 ?]; [done|].
  rewrite (Hall s0) by (by left). by left.
Qed.

Lemma common_length_constant (ls : list Z) v :
  ls ≠ [] → Forall (λ l, l = v) ls → common_length ls = v.
Proof.
  intros Hne Hall. destruct (decide (v = 1%Z)) as [->|Hv].
  - by apply common_length_all_ones.
  - apply common_length_found; [|done|].
    + destruct ls as [|l ls]; [done|].
      apply Forall_cons in Hall as [-> _]. by left.
    + eapply Forall_impl; [done|]. naive_solver.
Qed.

Section AllEqual.

Variables (shapes : list (list Z)) (s : list Z).
Hypothesis Hne : shapes ≠ [].
Hypothesis Hall : Forall (λ s', s' = s) shapes.

Lemma ndmax_all_equal : ndmax shapes = length s.
Proof.
  unfold ndmax.
  assert (length <$> shapes ≠ []) as Hne' by (by destruct shapes).
  pose proof (max_list_elem_of _ Hne') as Hin.
  apply list_elem_of_fmap in Hin as (s' & -> & Hs').
  by rewrite (proj1 (Forall_forall _ _) Hall s' Hs').
Qed.

Lemma right_align_same fill (v : list Z) :
  length v = length s → right_align (ndmax shapes) fill v = v.
Proof.
  intros Hv. unfold right_align. rewrite ndmax_all_equal, Hv.
  by rewrite Nat.sub_diag.
Qed.

Lemma axis_lengths_all_equal j v :
  s !! j = Some v → Forall (λ l, l = v) (axis_lengths shapes j).
Proof.
  intros Hv. unfold axis_lengths. apply Forall_fmap, Forall_forall.
  intros s' Hs'. simpl.
  rewrite (proj1 (Forall_forall _ _) Hall s' Hs').
  rewrite right_align_same by done. by rewrite Hv.
Qed.

Lemma common_shape_all_equal : common_shape shapes = s.
Proof.
  apply list_eq. intros j. unfold common_shape.
  rewrite list_lookup_fmap, ndmax_all_equal.
  destruct (s !! j) as [v|] eqn:Hv.
  - rewrite lookup_seq_lt by (by eapply lookup_lt_Some). simpl. f_equal.
    apply common_length_constant; [|by apply axis_lengths_all_equal].
    unfold axis_lengths. by destruct shapes.
  - by rewrite lookup_seq_ge by (by apply lookup_ge_None).
Qed.

(** On the fast path an operand is its own broadcast view. *)
Lemma fast_view subok x :
  shape x = s → wf_array x → broadcast_view shapes x (coerce subok x).
Proof.
  intros Hx Hwf. unfold broadcast_view.
  rewrite coerce_shape, coerce_buffer, coerce_strides, common_shape_all_equal.
  split_and!; [done..|]. intros j l c.
  rewrite !right_align_same by (by rewrite ?Hwf, Hx).
  rewrite Hx. intros Hl Hc. split; [congruence|done].
Qed.

End AllEqual.

(** The comprehension of lines 139-140 returns one view per row. *)
Lemma views_run af subok (rows : list (ndarray * list Z * list Z)) :
  ∃ l out,
    comprehension (λ '(x, sh, st), as_strided af x (Some sh) (Some st) subok)
                  rows = (l, Return out) ∧
    Forall2 (built_from subok) rows out.
Proof.
  destruct (comprehension_returns (built_from subok) (λ _, True)
              (λ '(x, sh, st), as_strided af x (Some sh) (Some st) subok) rows)
    as (l & out & Hrun & Hout & _); [|by eauto].
  intros [[x sh] st] _.
  destruct (as_strided_run af x (Some sh) st subok)
    as (l & y & Hrun & H1 & H2 & H3 & H4).
  exists l, y. split_and!; try done. by apply Forall_forall.
Qed.

(** On the other path the view built from the final variables of the loop
    is the broadcast view. *)
Lemma slow_view (shapes : list (list Z)) (x y : ndarray) :
  shape x ∈ shapes → wf_array x →
  let nd := ndmax shapes in
  let cs := axis_common (right_align nd 1%Z <$> shapes) in
  shape y = shape_upto cs nd (right_align nd 1%Z (shape x)) →
  strides y = strides_upto cs nd (right_align nd 1%Z (shape x))
                (right_align nd 0%Z (strides x)) →
  buffer y = buffer x →
  broadcast_view shapes x y.
Proof.
  intros Hin Hwf nd cs Hsh Hst Hbuf.
  assert (length (right_align nd 1%Z (shape x)) = nd) as Hlp
    by (by apply length_right_align, ndmax_le).
  assert (length (right_align nd 0%Z (strides x)) = nd) as Hlt
    by (apply length_right_align; rewrite Hwf; by apply ndmax_le).
  assert (common_shape shapes = cs <$> seq 0 nd) as Hcommon.
  { unfold common_shape. apply list_fmap_ext. intros _ j _.
    unfold cs, axis_common, nd. by rewrite column_aligned. }
  unfold broadcast_view. fold nd. rewrite Hcommon. split_and!; [|done|].
  - rewrite Hsh. apply list_eq. intros j.
    rewrite shape_upto_lookup, list_lookup_fmap.
    destruct (decide (j < nd)) as [Hj|Hj].
    + destruct (lookup_lt_is_Some_2 (right_align nd 1%Z (shape x)) j)
        as [l ->]; [lia|].
      by rewrite lookup_seq_lt.
    + rewrite lookup_seq_ge by lia.
      by rewrite (lookup_ge_None_2 (right_align nd 1%Z (shape x))) by lia.
  - intros j l c Hl Hc.
    assert (j < nd) as Hj by (rewrite <- Hlp; by eapply lookup_lt_Some).
    rewrite list_lookup_fmap, lookup_seq_lt in Hc by done.
    injection Hc as <-.
    destruct (lookup_lt_is_Some_2 (right_align nd 0%Z (strides x)) j)
      as [v Hv]; [lia|].
    rewrite Hst. unfold strides_upto. rewrite list_lookup_imap, Hv. simpl.
    split.
    + intros -> Hc. by rewrite decide_True.
    + intros ->. rewrite decide_False; [done|].
      intros (_ & H1 & H2). congruence.
Qed.

Lemma zip3_lookup {A B C} (xs : list A) (ys : list B) (zs : list C) i :
  zip3 xs ys zs !! i
  = (x ← xs !! i; y ← ys !! i; z ← zs !! i; Some (x, y, z)).
Proof.
  unfold zip3. rewrite !lookup_zip_with.
  destruct (xs !! i), (ys !! i), (zs !! i); done.
Qed.

Lemma zip3_length {A B C} (xs : list A) (ys : list B) (zs : list C) :
  length ys = length xs → length zs = length xs →
  length (zip3 xs ys zs) = length xs.
Proof. intros H1 H2. unfold zip3. rewrite !length_zip_with. lia. Qed.

Lemma broadcastable_columns (shapes : list (list Z)) k :
  broadcastable shapes → k < ndmax shapes →
  compatible_lengths
    (column k (right_align (ndmax shapes) 1%Z <$> shapes)).
Proof.
  intros H Hk. rewrite column_aligned.
  unfold broadcastable in H. rewrite Forall_forall in H.
  apply H, elem_of_seq. lia.
Qed.

(** The views of the slow path, once the loop over the axes has returned. *)
Lemma slow_views af (args : list ndarray) subok l out :
  Forall wf_array args →
  let shapes := shape <$> args in
  let nd := ndmax shapes in
  let ps := right_align nd 1%Z <$> shapes in
  let ts := (λ x, right_align nd 0%Z (strides x)) <$> args in
  let cs := axis_common ps in
  comprehension (λ '(x, sh, st), as_strided af x (Some sh) (Some st) subok)
    (zip3 (coerce subok <$> args) (shape_upto cs nd <$> ps)
          (zip_with (strides_upto cs nd) ps ts)) = (l, Return out) →
  Forall2 (broadcast_view shapes) args out.
Proof.
  intros Hwf shapes nd ps ts cs Hrun.
  destruct (views_run af subok
              (zip3 (coerce subok <$> args) (shape_upto cs nd <$> ps)
                    (zip_with (strides_upto cs nd) ps ts)))
    as (l' & out' & Hrun' & Hout).
  rewrite Hrun in Hrun'. injection Hrun' as <- <-.
  assert (length ps = length args) as Hlps
    by (unfold ps, shapes; by rewrite !length_fmap).
  assert (length ts = length args) as Hlts
    by (unfold ts; by rewrite length_fmap).
  apply Forall2_same_length_lookup. split.
  - rewrite <- (Forall2_length _ _ _ Hout).
    rewrite zip3_length; rewrite ?length_zip_with, !length_fmap; lia.
  - intros i x y Hx Hy.
    assert (zip3 (coerce subok <$> args) (shape_upto cs nd <$> ps)
              (zip_with (strides_upto cs nd) ps ts) !! i
            = Some (coerce subok x,
                    shape_upto cs nd (right_align nd 1%Z (shape x)),
                    strides_upto cs nd (right_align nd 1%Z (shape x))
                                 (right_align nd 0%Z (strides x)))) as Hrow.
    { rewrite zip3_lookup, lookup_zip_with. unfold ps, ts, shapes.
      rewrite !list_lookup_fmap, Hx. done. }
    destruct (Forall2_lookup_lr _ _ _ _ _ _ Hout Hrow Hy)
      as (H1 & H2 & H3 & _). simpl in *.
    apply slow_view; try done.
    + apply list_elem_of_fmap. exists x. split; [done|].
      by eapply list_elem_of_lookup_2.
    + by eapply Forall_lookup_1.
    + by rewrite H3, coerce_buffer.
Qed.

(** C1, as the code has it: for every non-empty list of operands whose
    aligned shapes are compatible on every axis, [broadcast_arrays] returns
    one view per operand, each a [broadcast_view]: all have the common
    shape, whose entry at an axis is the length other than 1 found there
    (1 when there is none, 0 when the axis is empty); on an axis whose
    common length is not 1 the operands of length 1 get stride 0; operands
    that already had the common length keep their stride. *)
Theorem broadcast_arrays_compatible af (args : list ndarray) (o : option bool) :
  args ≠ [] → Forall wf_array args → broadcastable (shape <$> args) →
  ∃ log out,
    broadcast_arrays af args (kw_subok o) = (log, Return out) ∧
    Forall2 (broadcast_view (shape <$> args)) args out.
Proof.
  intros Hne Hwf Hcompat.
  destruct (decide (size (list_to_set (shape <$> args) : gset (list Z)) = 1))
    as [Hone|Hmany].
  - destruct (size_one_all_equal _ Hone) as (s & Hne' & Hall).
    rewrite broadcast_arrays_fast by done.
    eexists _, _. split; [done|].
    apply Forall2_fmap_r, Forall_Forall2_diag, Forall_forall. intros x Hx.
    apply (fast_view _ s Hne' Hall).
    + rewrite Forall_forall in Hall. apply Hall.
      apply list_elem_of_fmap. by exists x.
    + rewrite Forall_forall in Hwf. by apply Hwf.
  - rewrite broadcast_arrays_slow by done.
    rewrite (axis_loop_returns _ _ (ndmax (shape <$> args))).
    + rewrite bind_ret. unfold state_upto.
      destruct (views_run af (default false o)
        (zip3 (coerce (default false o) <$> args)
           (shape_upto (axis_common (right_align (ndmax (shape <$> args)) 1%Z
                                       <$> (shape <$> args)))
              (ndmax (shape <$> args))
              <$> (right_align (ndmax (shape <$> args)) 1%Z <$> (shape <$> args)))
           (zip_with
              (strides_upto (axis_common (right_align (ndmax (shape <$> args)) 1%Z
                                            <$> (shape <$> args)))
                 (ndmax (shape <$> args)))
              (right_align (ndmax (shape <$> args)) 1%Z <$> (shape <$> args))
              ((λ x, right_align (ndmax (shape <$> args)) 0%Z (strides x))
                 <$> args))))
        as (l & out & Hrun & _).
      rewrite Hrun. eexists _, out. split; [done|].
      by eapply slow_views.
    + by rewrite !length_fmap.
    + apply padded_shapes_length.
    + by apply padded_strides_length.
    + intros k Hk. by apply broadcastable_columns.
Qed.

(** ** Shapes that cannot be broadcast *)

(** The first axis, if any, whose aligned lengths are not all equal or 1. *)
Definition first_incompatible (shapes : list (list Z)) : option nat :=
  fst <$> list_find (λ j, ¬ compatible_lengths (axis_lengths shapes j))
                    (seq 0 (ndmax shapes)).

Lemma first_incompatible_Some shapes k :
  first_incompatible shapes = Some k ↔
  k < ndmax shapes ∧ ¬ compatible_lengths (axis_lengths shapes k) ∧
  ∀ j, j < k → compatible_lengths (axis_lengths shapes j).
Proof.
  unfold first_incompatible. split.
  - intros H. apply fmap_Some in H as ([i x] & Hfind & ->). simpl.
    apply list_find_Some in Hfind as (Hi & Hno & Hbefore).
    apply lookup_seq in Hi as [-> Hi]. simpl in *. split_and!; [done..|].
    intros j Hj. destruct (decide (compatible_lengths (axis_lengths shapes j)))
      as [|Hn]; [done|].
    destruct (Hbefore j j); [|done..]. apply lookup_seq. lia.
  - intros (Hk & Hno & Hbefore).
    assert (list_find (λ j, ¬ compatible_lengths (axis_lengths shapes j))
              (seq 0 (ndmax shapes)) = Some (k, k)) as ->; [|done].
    apply list_find_Some. split_and!; [by apply lookup_seq_lt|done|].
    intros j y Hy Hj. apply lookup_seq in Hy as [-> _]. simpl.
    intros Hn. by apply Hn, Hbefore.
Qed.

Lemma incompatible_not_all_equal (shapes : list (list Z)) k :
  ¬ compatible_lengths (axis_lengths shapes k) →
  size (list_to_set shapes : gset (list Z)) ≠ 1.
Proof.
  intros Hno Hone. destruct (size_one_all_equal _ Hone) as (s & Hne & Hall).
  apply Hno. exists (default 1%Z (s !! k)).
  unfold axis_lengths. apply Forall_fmap, Forall_forall. intros s' Hs'. simpl.
  rewrite (proj1 (Forall_forall _ _) Hall s' Hs').
  rewrite (right_align_same shapes s) by done. by left.
Qed.

Lemma mismatch_gt1_incompatible ls : mismatch_gt1 ls → ¬ compatible_lengths ls.
Proof.
  intros (a & b & Ha & Hb & Hab & Ha1 & Hb1) [c Hc].
  rewrite Forall_forall in Hc.
  destruct (Hc a Ha), (Hc b Hb); lia.
Qed.

Lemma axis_lengths_beyond shapes j :
  ndmax shapes ≤ j → Forall (λ l, l = 1%Z) (axis_lengths shapes j).
Proof.
  intros Hj. unfold axis_lengths. apply Forall_fmap, Forall_forall.
  intros s Hs. simpl. rewrite lookup_ge_None_2; [done|].
  rewrite length_right_align; [done|]. by apply ndmax_le.
Qed.

Lemma incompatible_in_range shapes j :
  ¬ compatible_lengths (axis_lengths shapes j) → j < ndmax shapes.
Proof.
  intros Hno. destruct (decide (j < ndmax shapes)) as [|Hge]; [done|].
  destruct Hno. exists 1%Z.
  eapply Forall_impl; [apply axis_lengths_beyond; lia|]. naive_solver.
Qed.

(** The loop over the axes raises at the first incompatible axis, before
    any view is built. *)
Lemma broadcast_arrays_first_incompatible af (args : list ndarray) o k :
  Forall wf_array args →
  first_incompatible (shape <$> args) = Some k →
  broadcast_arrays af args (kw_subok o)
  = (coerce_events (default false o) args,
     Raise (ValueError (shape_mismatch_msg k))).
Proof.
  intros Hwf Hfirst.
  apply first_incompatible_Some in Hfirst as (Hk & Hno & Hbefore).
  assert (args ≠ []) as Hne.
  { intros ->. unfold ndmax in Hk. simpl in Hk. lia. }
  rewrite broadcast_arrays_slow;
    [|by eapply incompatible_not_all_equal|done..].
  assert (length ((λ x, right_align (ndmax (shape <$> args)) 0%Z (strides x))
                    <$> args)
          = length (right_align (ndmax (shape <$> args)) 1%Z
                      <$> (shape <$> args))) as Hlen
    by (by rewrite !length_fmap).
  rewrite (axis_loop_raises _ _ (ndmax (shape <$> args)) Hlen
             (padded_shapes_length _)
             (padded_strides_length _ Hwf) k).
  - rewrite bind_raise. unfold prepend. simpl. by rewrite app_nil_r.
  - done.
  - intros j Hj. rewrite column_aligned. by apply Hbefore.
  - by rewrite column_aligned.
Qed.

(** C2, as the code has it: when some axis [a] of the aligned shapes holds
    two different lengths that are both more than 1, [broadcast_arrays]
    raises the shape-mismatch [ValueError], after coercing the operands and
    before building any view.  The message names the first axis whose
    lengths are not all equal or 1; that axis is [a] when every axis before
    [a] is compatible. *)
Theorem broadcast_arrays_shape_mismatch af (args : list ndarray) o a :
  Forall wf_array args →
  mismatch_gt1 (axis_lengths (shape <$> args) a) →
  ∃ k, first_incompatible (shape <$> args) = Some k ∧ k ≤ a ∧
       broadcast_arrays af args (kw_subok o)
       = (coerce_events (default false o) args,
          Raise (ValueError (shape_mismatch_msg k))) ∧
       ((∀ j, j < a → compatible_lengths (axis_lengths (shape <$> args) j)) →
        k = a).
Proof.
  intros Hwf Hmis. apply mismatch_gt1_incompatible in Hmis.
  pose proof (incompatible_in_range _ _ Hmis) as Ha.
  destruct (list_find_elem_of
              (λ j, ¬ compatible_lengths (axis_lengths (shape <$> args) j))
              (seq 0 (ndmax (shape <$> args))) a) as [[i k] Hfind];
    [apply elem_of_seq; lia | done |].
  assert (first_incompatible (shape <$> args) = Some k) as Hfirst.
  { unfold first_incompatible. rewrite Hfind.
    apply list_find_Some in Hfind as (Hi & _).
    by apply lookup_seq in Hi as [-> _]. }
  exists k. pose proof Hfirst as (Hk & Hno & Hbefore)%first_incompatible_Some.
  assert (k ≤ a) as Hle.
  { destruct (decide (k ≤ a)); [done|]. destruct Hmis. apply Hbefore. lia. }
  split_and!; [done | done | by apply broadcast_arrays_first_incompatible |].
  intros Hall. destruct (decide (k = a)); [done|].
  destruct Hno. apply Hall. lia.
Qed.

(** ** Worked instances *)

Lemma broadcast_arrays_compatible_witness :
  ∃ log out,
    broadcast_arrays no_finalize
      [base_array [1; 3]%Z [24; 8]%Z; base_array [3; 1]%Z [8; 8]%Z]
      (kw_subok None) = (log, Return out) ∧
    Forall2 (broadcast_view [[1; 3]%Z; [3; 1]%Z])
      [base_array [1; 3]%Z [24; 8]%Z; base_array [3; 1]%Z [8; 8]%Z] out.
Proof.
  apply (broadcast_arrays_compatible no_finalize
           [base_array [1; 3]%Z [24; 8]%Z; base_array [3; 1]%Z [8; 8]%Z] None).
  - done.
  - by repeat constructor.
  - apply (bool_decide_unpack _). by vm_compute.
Defined.

(** The docstring example: [[1,2,3]] against [[1],[2],[3]]. *)
Example broadcast_arrays_docstring :
  broadcast_arrays no_finalize
    [base_array [1; 3]%Z [24; 8]%Z; base_array [3; 1]%Z [8; 8]%Z] ∅
  = ([Ev_array ndarray_t false; Ev_array ndarray_t false;
      Ev_array ndarray_t false;
      Ev_from_interface
        (mk_interface [3; 3]%Z (Some [0; 8]%Z) ("f"%string, 8%Z) 4096);
      Ev_array ndarray_t false;
      Ev_from_interface
        (mk_interface [3; 3]%Z (Some [8; 0]%Z) ("f"%string, 8%Z) 4096)],
     Return [base_array [3; 3]%Z [0; 8]%Z; base_array [3; 3]%Z [8; 0]%Z]).
Proof. by vm_compute. Qed.

(** C1 as worded fails on an empty axis: shapes (0,) and (1,) are
    compatible, no length there is more than 1, and yet the views have
    shape (0,), not (1,). *)
Lemma broadcast_arrays_empty_axis :
  let args := [base_array [0]%Z [8]%Z; base_array [1]%Z [8]%Z] in
  broadcastable (shape <$> args) ∧
  common_shape_gt1 (shape <$> args) = [1%Z] ∧
  ∃ log out,
    broadcast_arrays no_finalize args ∅ = (log, Return out) ∧
    shape <$> out = [[0%Z]; [0%Z]] ∧
    ¬ Forall (λ y, shape y = common_shape_gt1 (shape <$> args)) out.
Proof.
  simpl. split_and!.
  - apply (bool_decide_unpack _). by vm_compute.
  - by vm_compute.
  - eexists _, _. split_and!; [by vm_compute | done |].
    intros H. apply Forall_cons in H as [H _]. by vm_compute in H.
Qed.

Lemma broadcast_arrays_shape_mismatch_witness :
  ∃ k, first_incompatible [[3; 4]%Z; [3; 5]%Z] = Some k ∧ k ≤ 1 ∧
       broadcast_arrays no_finalize
         [base_array [3; 4]%Z [32; 8]%Z; base_array [3; 5]%Z [40; 8]%Z]
         (kw_subok None)
       = ([Ev_array ndarray_t false; Ev_array ndarray_t false],
          Raise (ValueError (shape_mismatch_msg k))) ∧
       ((∀ j, j < 1 →
           compatible_lengths (axis_lengths [[3; 4]%Z; [3; 5]%Z] j)) → k = 1).
Proof.
  apply (broadcast_arrays_shape_mismatch no_finalize
           [base_array [3; 4]%Z [32; 8]%Z; base_array [3; 5]%Z [40; 8]%Z]
           None 1).
  - by repeat constructor.
  - exists 4%Z, 5%Z. vm_compute. split_and!; try done.
    + apply list_elem_of_here.
    + apply list_elem_of_further, list_elem_of_here.
Defined.

(** Shapes (3,4) and (3,5): the error names axis 1. *)
Example broadcast_arrays_3_4_and_3_5 :
  broadcast_arrays no_finalize
    [base_array [3; 4]%Z [32; 8]%Z; base_array [3; 5]%Z [40; 8]%Z] ∅
  = ([Ev_array ndarray_t false; Ev_array ndarray_t false],
     Raise (ValueError
       "shape mismatch: two or more arrays have incompatible dimensions on axis 1.")).
Proof. by vm_compute. Qed.

(** C2 as worded fails when two axes disagree: shapes (2,4) and (3,5)
    hold 4 and 5 at axis 1, and the error names axis 0. *)
Lemma broadcast_arrays_two_bad_axes :
  let args := [base_array [2; 4]%Z [32; 8]%Z; base_array [3; 5]%Z [40; 8]%Z] in
  mismatch_gt1 (axis_lengths (shape <$> args) 1) ∧
  broadcast_arrays no_finalize args ∅
  = ([Ev_array ndarray_t false; Ev_array ndarray_t false],
     Raise (ValueError (shape_mismatch_msg 0))) ∧
  shape_mismatch_msg 0 ≠ shape_mismatch_msg 1.
Proof.
  simpl. split_and!.
  - exists 4%Z, 5%Z. vm_compute. split_and!; try done.
    + apply list_elem_of_here.
    + apply list_elem_of_further, list_elem_of_here.
  - by vm_compute.
  - by vm_compute.
Qed.

(** ** The fast path *)

(** C7: when the operands (at least one) all have the same shape,
    [broadcast_arrays] returns the coerced operands themselves; the log
    holds the coercions only, so no view is built; shape, strides, buffer
    and element type of each returned array are those of the operand it
    comes from; an operand that coercion leaves alone (a base-class array,
    or any array under [subok=True]) is returned as it is, and an instance
    of a subclass without [subok] comes back as a base-class array without
    the metadata of the subclass. *)
Theorem broadcast_arrays_identical_shapes af (args : list ndarray) o s :
  args ≠ [] → Forall (λ x, shape x = s) args →
  let subok := default false o in
  broadcast_arrays af args (kw_subok o)
  = (coerce_events subok args, Return (coerce subok <$> args)) ∧
  Forall (λ e, is_construction e = false) (coerce_events subok args) ∧
  Forall2 (λ x y, shape y = shape x ∧ strides y = strides x ∧
                  buffer y = buffer x ∧ dtype_of y = dtype_of x ∧
                  cls y = (if subok then cls x else ndarray_t) ∧
                  (subok = true ∨ cls x = ndarray_t → y = x) ∧
                  (subok = false → cls x ≠ ndarray_t → info y = []))
          args (coerce subok <$> args) ∧
  (Forall (λ x, subok = true ∨ cls x = ndarray_t) args →
   coerce subok <$> args = args).
Proof.
  intros Hne Hall subok.
  assert (∀ x, subok = true ∨ cls x = ndarray_t → coerce subok x = x)
    as Hsame.
  { intros x [->|Hc]; [done|]. unfold coerce.
    rewrite bool_decide_eq_true_2 by done. by rewrite orb_true_r. }
  split_and!.
  - apply broadcast_arrays_fast. apply (all_equal_size_one _ s).
    + by destruct args.
    + by apply Forall_fmap.
  - unfold coerce_events. by apply Forall_fmap, Forall_forall.
  - apply Forall2_fmap_r, Forall_Forall2_diag, Forall_forall. intros x _.
    simpl. rewrite coerce_shape, coerce_strides, coerce_buffer, coerce_dtype,
      coerce_cls.
    split_and!; [done..|apply Hsame|].
    intros Hs Hc. unfold coerce. rewrite Hs. simpl.
    by rewrite bool_decide_eq_false_2.
  - intros Hleft. rewrite <- (list_fmap_id args) at 2.
    apply list_fmap_ext. intros i x Hx. simpl.
    apply Hsame, (Forall_lookup_1 _ _ _ _ Hleft Hx).
Qed.

Lemma broadcast_arrays_identical_shapes_witness :
  let args := [info_array [2; 3]%Z [24; 8]%Z [7%Z];
               base_array [2; 3]%Z [8; 16]%Z] in
  broadcast_arrays copy_info_finalize args (kw_subok None)
  = (coerce_events false args, Return (coerce false <$> args)) ∧
  Forall (λ e, is_construction e = false) (coerce_events false args) ∧
  Forall2 (λ x y, shape y = shape x ∧ strides y = strides x ∧
                  buffer y = buffer x ∧ dtype_of y = dtype_of x ∧
                  cls y = ndarray_t ∧
                  (false = true ∨ cls x = ndarray_t → y = x) ∧
                  (false = false → cls x ≠ ndarray_t → info y = []))
          args (coerce false <$> args) ∧
  (Forall (λ x, false = true ∨ cls x = ndarray_t) args →
   coerce false <$> args = args).
Proof.
  apply (broadcast_arrays_identical_shapes copy_info_finalize
           [info_array [2; 3]%Z [24; 8]%Z [7%Z];
            base_array [2; 3]%Z [8; 16]%Z]
           None [2; 3]%Z).
  - done.
  - by repeat constructor.
Defined.

(** C7 as worded fails for an instance of a subclass: both operands have
    shape (2,3), the fast path is taken, and the array returned for the
    first one is not that operand but a base-class array without its
    metadata. *)
Lemma broadcast_arrays_subclass_operand :
  let args := [info_array [2; 3]%Z [24; 8]%Z [7%Z];
               base_array [2; 3]%Z [24; 8]%Z] in
  Forall (λ x, shape x = [2; 3]%Z) args ∧
  broadcast_arrays copy_info_finalize args ∅
  = ([Ev_array InfoArray false; Ev_array ndarray_t false],
     Return [base_array [2; 3]%Z [24; 8]%Z; base_array [2; 3]%Z [24; 8]%Z]) ∧
  ¬ returns_operands_unchanged copy_info_finalize args ∅.
Proof.
  simpl. split_and!.
  - by repeat constructor.
  - by vm_compute.
  - intros [log H]. vm_compute in H. discriminate H.
Qed.

(** ** [as_strided] with its defaults *)

Lemma in_bounds_no_empty_axis dims idx : in_bounds dims idx → 0%Z ∉ dims.
Proof.
  induction 1 as [|n i dims idx Hi _ IH]; [apply not_elem_of_nil|].
  apply not_elem_of_cons. split; [lia|done].
Qed.

(** On an array without an empty axis whose strides pass the scan, the
    fresh C-order layout and the strides differ on axes of length 1 only. *)
Lemma fill_strides_contiguous itemsize dims : ∀ st,
  length st = length dims → 0%Z ∉ dims →
  snd (contiguous_from itemsize dims st) = true →
  fst (fill_strides itemsize dims) = fst (contiguous_from itemsize dims st) ∧
  (∀ idx, in_bounds dims idx →
          offset (snd (fill_strides itemsize dims)) idx = offset st idx) ∧
  (Forall (λ n, n ≠ 1%Z) dims → snd (fill_strides itemsize dims) = st).
Proof.
  induction dims as [|d dims IH]; intros [|s st] Hlen Hz Hok;
    simpl in *; try done.
  apply not_elem_of_cons in Hz as [Hd Hz].
  specialize (IH st).
  destruct (fill_strides itemsize dims) as [sd1 st1].
  destruct (contiguous_from itemsize dims st) as [sd2 ok].
  rewrite (decide_False (P := d = 0%Z)) by done.
  destruct (decide (d = 1%Z)) as [->|Hd1]; simpl in *.
  - destruct (IH ltac:(lia) Hz Hok) as (-> & Hoff & _).
    split_and!; [lia| |].
    + intros idx Hidx. apply Forall2_cons_inv_l in Hidx
        as (i & idx' & Hi & Hidx' & ->).
      assert (i = 0%Z) as -> by lia.
      simpl. by rewrite (Hoff idx' Hidx').
    + intros [? _]%Forall_cons. done.
  - apply andb_true_iff in Hok as [Hok Hs].
    apply bool_decide_eq_true_1 in Hs as ->.
    destruct (IH ltac:(lia) Hz Hok) as (-> & Hoff & Hsame).
    split_and!; [done| |].
    + intros idx Hidx. apply Forall2_cons_inv_l in Hidx
        as (i & idx' & Hi & Hidx' & ->).
      simpl. by rewrite (Hoff idx' Hidx').
    + intros [_ Hrest]%Forall_cons. by rewrite (Hsame Hrest).
Qed.

Lemma contiguous_same_elements x idx :
  wf_array x → c_contiguous x = true → in_bounds (shape x) idx →
  offset (contiguous_strides (dt_itemsize (dtype_of x)) (shape x)) idx
  = offset (strides x) idx.
Proof.
  intros Hwf Hc Hidx. pose proof (in_bounds_no_empty_axis _ _ Hidx) as Hz.
  unfold c_contiguous in Hc.
  rewrite (bool_decide_eq_false_2 _ Hz) in Hc. simpl in Hc.
  destruct (fill_strides_contiguous _ _ (strides x) Hwf Hz Hc)
    as (_ & Hoff & _).
  by apply Hoff.
Qed.

Lemma contiguous_same_strides x :
  wf_array x → c_contiguous x = true →
  Forall (λ n, n ≠ 0%Z ∧ n ≠ 1%Z) (shape x) →
  contiguous_strides (dt_itemsize (dtype_of x)) (shape x) = strides x.
Proof.
  intros Hwf Hc Hall.
  assert (0%Z ∉ shape x) as Hz.
  { intros Hin. by destruct (proj1 (Forall_forall _ _) Hall _ Hin). }
  unfold c_contiguous in Hc.
  rewrite (bool_decide_eq_false_2 _ Hz) in Hc. simpl in Hc.
  destruct (fill_strides_contiguous _ _ (strides x) Hwf Hz Hc)
    as (_ & _ & Hsame).
  apply Hsame. eapply Forall_impl; [done|]. by intros n [_ ?].
Qed.

(** C8: without [shape] and [strides], [as_strided] returns an array with
    the shape and the buffer of its argument.  Its strides are those of the
    argument when the argument is not C-contiguous, and the C-order strides
    of the shape when it is.  For an argument with one stride per dimension
    the two address the same element at every index within the shape, and
    they are the same strides when no axis has length 0 or 1. *)
Theorem as_strided_defaults af (x : ndarray) (subok : bool) :
  ∃ log y,
    as_strided af x None None subok = (log, Return y) ∧
    shape y = shape x ∧ buffer y = buffer x ∧
    strides y = (if c_contiguous x
                 then contiguous_strides (dt_itemsize (dtype_of x)) (shape x)
                 else strides x) ∧
    (wf_array x →
     (∀ idx, in_bounds (shape x) idx →
             offset (strides y) idx = offset (strides x) idx) ∧
     (Forall (λ n, n ≠ 0%Z ∧ n ≠ 1%Z) (shape x) → strides y = strides x)).
Proof.
  rewrite as_strided_closed. eexists _, _. split; [done|].
  unfold strided_view, base_view, strided_interface. simpl.
  split_and!; [done|done|by destruct (c_contiguous x)|].
  intros Hwf. destruct (c_contiguous x) eqn:Hc; simpl; [|done].
  split.
  - intros idx Hidx. by apply contiguous_same_elements.
  - by apply contiguous_same_strides.
Qed.

Lemma as_strided_defaults_witness :
  let x := base_array [2; 1; 3]%Z [24; 0; 8]%Z in
  ∃ log y,
    as_strided no_finalize x None None false = (log, Return y) ∧
    shape y = [2; 1; 3]%Z ∧ buffer y = buffer x ∧
    ∀ idx, in_bounds [2; 1; 3]%Z idx →
           offset (strides y) idx = offset [24; 0; 8]%Z idx.
Proof.
  destruct (as_strided_defaults no_finalize
              (base_array [2; 1; 3]%Z [24; 0; 8]%Z) false)
    as (log & y & Hrun & Hs & Hb & _ & Hwf).
  exists log, y. split_and!; [done..|].
  apply Hwf. reflexivity.
Defined.

(** C8 as worded fails on a C-contiguous array with an axis of length 1:
    for shape (1,3) and strides (0,8) the interface holds no strides, so
    the result is laid out afresh, with strides (24,8). *)
Lemma as_strided_defaults_relaid :
  let x := base_array [1; 3]%Z [0; 8]%Z in
  ∃ log y,
    as_strided no_finalize x None None false = (log, Return y) ∧
    strides y = [24; 8]%Z ∧
    ¬ same_header x y.
Proof.
  eexists _, _. split_and!; [by vm_compute|done|].
  intros (_ & H & _). by vm_compute in H.
Qed.

(** ** [rolling_window] *)

(** C9: for an array with at least one dimension, of last length [n] and
    last stride [st]: with [1 <= window <= n] the result is a view over the
    buffer of [a] whose shape is [a.shape[:-1] + (n - window + 1, window)]
    and whose strides are [a.strides + (st,)]; with [window < 1] or
    [window > n] a [ValueError] is raised and nothing is built. *)
Theorem rolling_window_spec af (a : ndarray) (window n st : Z) :
  last (shape a) = Some n → last (strides a) = Some st →
  ((1 ≤ window ≤ n)%Z →
   ∃ log y, rolling_window af a window = (log, Return y) ∧
            shape y = removelast (shape a) ++ [(n - window + 1)%Z; window] ∧
            strides y = strides a ++ [st] ∧
            buffer y = buffer a) ∧
  ((window < 1 ∨ window > n)%Z →
   ∃ msg, rolling_window af a window = ([], Raise (ValueError msg))).
Proof.
  intros Hn Hst. unfold rolling_window, getitem_last. rewrite Hn, Hst. split.
  - intros [H1 H2].
    rewrite bool_decide_eq_false_2 by lia. rewrite bind_ret.
    rewrite bool_decide_eq_false_2 by lia. rewrite bind_ret.
    destruct (as_strided_run af a
                (Some (removelast (shape a) ++ [(n - window + 1)%Z; window]))
                (strides a ++ [st]) false)
      as (l & y & Hrun & Hs & Ht & Hb & _).
    by exists l, y.
  - intros Hbad. case_bool_decide; [by eexists|].
    rewrite bind_ret, bool_decide_eq_true_2 by lia. by eexists.
Qed.

Lemma rolling_window_spec_witness :
  ((1 ≤ 3 ≤ 5)%Z →
   ∃ log y, rolling_window no_finalize (base_array [2; 5]%Z [40; 8]%Z) 3
            = (log, Return y) ∧
            shape y = removelast [2; 5]%Z ++ [(5 - 3 + 1)%Z; 3%Z] ∧
            strides y = [40; 8]%Z ++ [8%Z] ∧
            buffer y = 4096%Z) ∧
  ((3 < 1 ∨ 3 > 5)%Z →
   ∃ msg, rolling_window no_finalize (base_array [2; 5]%Z [40; 8]%Z) 3
          = ([], Raise (ValueError msg))).
Proof.
  apply (rolling_window_spec no_finalize (base_array [2; 5]%Z [40; 8]%Z)
           3 5 8); reflexivity.
Defined.

(** The docstring example: a (2,5) array and a window of 3. *)
Example rolling_window_docstring :
  (rolling_window no_finalize (base_array [2; 5]%Z [40; 8]%Z) 3).2
  = Return (base_array [2; 3; 3]%Z [40; 8; 8]%Z).
Proof. by vm_compute. Qed.

Example rolling_window_too_long :
  rolling_window no_finalize (base_array [2; 5]%Z [40; 8]%Z) 6
  = ([], Raise (ValueError "`window` is too long.")).
Proof. by vm_compute. Qed.

Example rolling_window_too_short :
  rolling_window no_finalize (base_array [2; 5]%Z [40; 8]%Z) 0
  = ([], Raise (ValueError "`window` must be at least 1.")).
Proof. by vm_compute. Qed.

(** ** Unexpected keyword arguments *)

(** C10: a call that passes any keyword other than [subok] raises a
    [TypeError]; the log is empty, so no operand was coerced and no view
    built. *)
Theorem broadcast_arrays_unexpected_keyword af (args : list ndarray)
    (kwargs : gmap string bool) (key : string) :
  key ≠ "subok"%string → is_Some (kwargs !! key) →
  ∃ msg, broadcast_arrays af args kwargs = ([], Raise (TypeError msg)).
Proof.
  intros Hkey [v Hv]. unfold broadcast_arrays, dict_pop_default.
  rewrite bool_decide_eq_true_2.
  - unfold dict_pop_nokey. rewrite bind_raise. by eexists.
  - intros Hempty.
    assert (delete "subok"%string kwargs !! key = Some v) as Hin
      by (by rewrite lookup_delete_ne).
    by rewrite Hempty, lookup_empty in Hin.
Qed.

Lemma broadcast_arrays_unexpected_keyword_witness :
  ∃ msg,
    broadcast_arrays no_finalize
      [base_array [3; 4]%Z [32; 8]%Z; base_array [3; 5]%Z [40; 8]%Z]
      {[ "order"%string := true ]}
    = ([], Raise (TypeError msg)).
Proof.
  apply (broadcast_arrays_unexpected_keyword no_finalize _ _ "order"%string).
  - done.
  - by rewrite lookup_singleton_eq.
Defined.

(** * Further facts about [stride_tricks] *)

(** ** [as_strided] in closed form *)

Lemma coerce_idemp subok x : coerce subok (coerce subok x) = coerce subok x.
Proof.
  destruct subok; [done|]. apply coerce_base_class. by rewrite coerce_cls.
Qed.

Lemma rebuild_dtype_idemp d : rebuild_dtype (rebuild_dtype d) = rebuild_dtype d.
Proof.
  unfold rebuild_dtype. destruct (decide (dt_kind d = "V"%string)) as [Hk|Hk].
  - by rewrite !(bool_decide_eq_true_2 _ Hk).
  - rewrite !(bool_decide_eq_false_2 _ Hk). simpl.
    by rewrite ?(bool_decide_eq_false_2 _ Hk).
Qed.

(** X2: without [subok] the result of [as_strided] is an instance of the
    base class with no subclass metadata, whatever the class of the input
    and whatever hooks exist; no subclass view is taken and no
    [__array_finalize__] is called. *)
Theorem as_strided_base_class af (x : ndarray) (osh ost : option (list Z)) :
  ∃ log y,
    as_strided af x osh ost false = (log, Return y) ∧
    cls y = ndarray_t ∧ info y = [] ∧
    Forall (λ e, is_subclass_event e = false) log.
Proof.
  rewrite as_strided_closed. eexists _, _. split; [done|].
  unfold strided_view, strided_log. simpl. rewrite coerce_cls.
  rewrite decide_True by done. split_and!; [done..|].
  by repeat constructor.
Qed.

Lemma as_strided_base_view af x osh ost :
  strided_view af x osh ost false = base_view x osh ost.
Proof.
  unfold strided_view. rewrite coerce_cls.
  by rewrite decide_True by done.
Qed.

(** X3: with [subok=True] an instance of a subclass that defines
    [__array_finalize__] comes back as an instance of that subclass, and
    the hook runs twice: once when the view is taken, on the base-class
    array [a] that [as_strided] builds without [subok], and once
    explicitly, on the input.  The metadata is what the second call makes
    of what the first one left. *)
Theorem as_strided_finalizes_subclass af (x : ndarray)
    (osh ost : option (list Z)) (hook : ndarray → list Z → list Z) :
  cls x ≠ ndarray_t → af (cls x) = Some hook →
  ∃ i a y,
    (as_strided af x osh ost false).2 = Return a ∧
    as_strided af x osh ost true
    = ([Ev_array (cls x) true; Ev_from_interface i; Ev_view (cls x);
        Ev_finalize (cls x); Ev_finalize (cls x)], Return y) ∧
    cls y = cls x ∧ info y = hook x (hook a []).
Proof.
  intros Hcls Hhook. rewrite !as_strided_closed, as_strided_base_view.
  unfold strided_view, strided_log. rewrite !coerce_subok. simpl.
  rewrite !decide_False, !Hhook by done. by eexists _, _, _.
Qed.

Lemma as_strided_finalizes_subclass_witness :
  ∃ i a y,
    (as_strided append_shape_finalize (info_array [2; 3]%Z [24; 8]%Z [7%Z])
                (Some [3; 2]%Z) (Some [8; 24]%Z) false).2 = Return a ∧
    as_strided append_shape_finalize (info_array [2; 3]%Z [24; 8]%Z [7%Z])
               (Some [3; 2]%Z) (Some [8; 24]%Z) true
    = ([Ev_array InfoArray true; Ev_from_interface i; Ev_view InfoArray;
        Ev_finalize InfoArray; Ev_finalize InfoArray], Return y) ∧
    cls y = InfoArray ∧
    info y = (λ obj cur, cur ++ shape obj)
               (info_array [2; 3]%Z [24; 8]%Z [7%Z])
               ((λ obj cur, cur ++ shape obj) a []).
Proof.
  apply (as_strided_finalizes_subclass append_shape_finalize
           (info_array [2; 3]%Z [24; 8]%Z [7%Z]) (Some [3; 2]%Z)
           (Some [8; 24]%Z) (λ obj cur, cur ++ shape obj)).
  - done.
  - reflexivity.
Defined.

(** With the hook that appends shapes, both calls show in the metadata:
    first the shape of the base-class array, then that of the input. *)
Example as_strided_finalizes_twice :
  (as_strided append_shape_finalize (info_array [2; 3]%Z [24; 8]%Z [7%Z])
              (Some [3; 2]%Z) (Some [8; 24]%Z) true).2
  = Return (info_array [3; 2]%Z [8; 24]%Z [3; 2; 2; 3]%Z).
Proof. by vm_compute. Qed.

(** X4: views do not stack: restriding, without [subok], a view that
    [as_strided] made gives the same array as restriding the array the view
    was made from. *)
Theorem as_strided_of_view af (x y : ndarray) (osh ost : option (list Z))
    (sh st : list Z) (log : list event) :
  as_strided af x osh ost false = (log, Return y) →
  (as_strided af y (Some sh) (Some st) false).2
  = (as_strided af x (Some sh) (Some st) false).2.
Proof.
  rewrite !as_strided_closed. intros [= _ <-]. simpl. f_equal.
  unfold strided_view. simpl. rewrite !coerce_cls. simpl.
  by rewrite rebuild_dtype_idemp.
Qed.

Lemma as_strided_of_view_witness :
  (as_strided no_finalize
     (strided_view no_finalize (base_array [6]%Z [8]%Z)
        (Some [2; 3]%Z) (Some [24; 8]%Z) false)
     (Some [3; 2]%Z) (Some [16; 8]%Z) false).2
  = (as_strided no_finalize (base_array [6]%Z [8]%Z)
       (Some [3; 2]%Z) (Some [16; 8]%Z) false).2.
Proof.
  apply (as_strided_of_view no_finalize (base_array [6]%Z [8]%Z) _
           (Some [2; 3]%Z) (Some [24; 8]%Z) [3; 2]%Z [16; 8]%Z
           (strided_log no_finalize (base_array [6]%Z [8]%Z)
              (Some [2; 3]%Z) (Some [24; 8]%Z) false)).
  reflexivity.
Defined.

(** ** The views of [broadcast_arrays] in closed form *)

Lemma stretched_strides_lookup p c t j :
  stretched_strides p c t !! j
  = (l ← p !! j; cj ← c !! j; v ← t !! j;
     Some (if decide (l = 1%Z ∧ cj ≠ 1%Z) then 0%Z else v)).
Proof.
  revert c t j. induction p as [|l p IH]; intros [|cj c] [|v t] [|j];
    simpl; try done;
    try (by destruct (p !! j));
    try (by destruct (p !! j); simpl; [destruct (c !! j)|]);
    try apply IH.
Qed.

Lemma stretched_strides_length p c t n :
  length p = n → length c = n → length t = n →
  length (stretched_strides p c t) = n.
Proof.
  revert c t n. induction p as [|l p IH]; intros [|cj c] [|v t] n;
    simpl; intros; try lia.
  rewrite (IH c t (pred n)); lia.
Qed.

Lemma stretched_strides_same s t :
  length t = length s → stretched_strides s s t = t.
Proof.
  revert t. induction s as [|l s IH]; intros [|v t] Hlen; simpl in *;
    try done.
  rewrite IH by lia. rewrite decide_False; [done|]. by intros [? ?].
Qed.

Lemma strides_upto_closed cs nd p t :
  length p = nd → length t = nd →
  strides_upto cs nd p t = stretched_strides p (cs <$> seq 0 nd) t.
Proof.
  intros Hp Ht. apply list_eq. intros j.
  unfold strides_upto. rewrite list_lookup_imap, stretched_strides_lookup.
  rewrite list_lookup_fmap.
  destruct (decide (j < nd)) as [Hj|Hj].
  - destruct (lookup_lt_is_Some_2 p j) as [l Hl]; [lia|].
    destruct (lookup_lt_is_Some_2 t j) as [v Hv]; [lia|].
    rewrite Hl, Hv, lookup_seq_lt by done. simpl. f_equal.
    apply decide_ext. naive_solver.
  - rewrite (lookup_ge_None_2 t), (lookup_ge_None_2 p) by lia. done.
Qed.

Lemma common_shape_columns shapes :
  common_shape shapes
  = axis_common (right_align (ndmax shapes) 1%Z <$> shapes)
      <$> seq 0 (ndmax shapes).
Proof.
  unfold common_shape. apply list_fmap_ext. intros _ j _.
  unfold axis_common. by rewrite column_aligned.
Qed.

Lemma common_shape_length shapes : length (common_shape shapes) = ndmax shapes.
Proof. unfold common_shape. by rewrite length_fmap, length_seq. Qed.

Lemma fast_result (shapes : list (list Z)) s subok x :
  shapes ≠ [] → Forall (λ s', s' = s) shapes →
  shape x = s → wf_array x →
  broadcast_result shapes subok x (coerce subok x).
Proof.
  intros Hne Hall Hx Hwf. unfold broadcast_result, broadcast_strides.
  rewrite coerce_shape, coerce_buffer, coerce_strides.
  unfold wf_array in Hwf.
  rewrite (common_shape_all_equal shapes s) by done.
  rewrite !(right_align_same shapes s Hne Hall) by (by rewrite ?Hwf, Hx).
  rewrite Hx, stretched_strides_same by (by rewrite Hwf, Hx). done.
Qed.

Lemma slow_results af (args : list ndarray) subok l out :
  Forall wf_array args →
  let shapes := shape <$> args in
  let nd := ndmax shapes in
  let ps := right_align nd 1%Z <$> shapes in
  let ts := (λ x, right_align nd 0%Z (strides x)) <$> args in
  let cs := axis_common ps in
  comprehension (λ '(x, sh, st), as_strided af x (Some sh) (Some st) subok)
    (zip3 (coerce subok <$> args) (shape_upto cs nd <$> ps)
          (zip_with (strides_upto cs nd) ps ts)) = (l, Return out) →
  Forall2 (broadcast_result shapes subok) args out.
Proof.
  intros Hwf shapes nd ps ts cs Hrun.
  pose proof (slow_views af args subok l out Hwf Hrun) as Hviews.
  destruct (views_run af subok
              (zip3 (coerce subok <$> args) (shape_upto cs nd <$> ps)
                    (zip_with (strides_upto cs nd) ps ts)))
    as (l' & out' & Hrun' & Hout).
  rewrite Hrun in Hrun'. injection Hrun' as <- <-.
  apply Forall2_same_length_lookup. split; [by eapply Forall2_length|].
  intros i x y Hx Hy.
  destruct (Forall2_lookup_lr _ _ _ _ _ _ Hviews Hx Hy) as (Hsh & Hbuf & _).
  assert (zip3 (coerce subok <$> args) (shape_upto cs nd <$> ps)
            (zip_with (strides_upto cs nd) ps ts) !! i
          = Some (coerce subok x,
                  shape_upto cs nd (right_align nd 1%Z (shape x)),
                  strides_upto cs nd (right_align nd 1%Z (shape x))
                               (right_align nd 0%Z (strides x)))) as Hrow.
  { rewrite zip3_lookup, lookup_zip_with. unfold ps, ts, shapes.
    rewrite !list_lookup_fmap, Hx. done. }
  destruct (Forall2_lookup_lr _ _ _ _ _ _ Hout Hrow Hy)
    as (_ & Hst & _ & Hcls). simpl in *.
  assert (shape x ∈ shapes) as Hin.
  { apply list_elem_of_fmap. exists x. split; [done|].
    by eapply list_elem_of_lookup_2. }
  pose proof (Forall_lookup_1 _ _ _ _ Hwf Hx) as Hwfx. simpl in Hwfx.
  split_and!; [done| |done|by rewrite Hcls, coerce_idemp].
  rewrite Hst. unfold broadcast_strides. fold nd.
  rewrite (common_shape_columns shapes). fold nd ps cs.
  apply strides_upto_closed.
  - by apply length_right_align, ndmax_le.
  - apply length_right_align. rewrite Hwfx. by apply ndmax_le.
Qed.

(** What [broadcast_arrays] returns on compatible shapes, in closed form. *)
Lemma broadcast_arrays_returns af (args : list ndarray) (o : option bool) :
  args ≠ [] → Forall wf_array args → broadcastable (shape <$> args) →
  ∃ log out,
    broadcast_arrays af args (kw_subok o) = (log, Return out) ∧
    Forall2 (broadcast_result (shape <$> args) (default false o)) args out.
Proof.
  intros Hne Hwf Hcompat.
  destruct (decide (size (list_to_set (shape <$> args) : gset (list Z)) = 1))
    as [Hone|Hmany].
  - destruct (size_one_all_equal _ Hone) as (s & Hne' & Hall).
    rewrite broadcast_arrays_fast by done.
    eexists _, _. split; [done|].
    apply Forall2_fmap_r, Forall_Forall2_diag, Forall_forall. intros x Hx.
    apply (fast_result _ s); [done..| |].
    + apply (proj1 (Forall_forall _ _) Hall).
      apply list_elem_of_fmap. by exists x.
    + by apply (proj1 (Forall_forall _ _) Hwf).
  - rewrite broadcast_arrays_slow by done.
    assert (length ((λ x, right_align (ndmax (shape <$> args)) 0%Z (strides x))
                      <$> args)
            = length (right_align (ndmax (shape <$> args)) 1%Z
                        <$> (shape <$> args))) as Hlen
      by (by rewrite !length_fmap).
    rewrite (axis_loop_returns _ _ (ndmax (shape <$> args)) Hlen
               (padded_shapes_length _) (padded_strides_length _ Hwf)).
    + rewrite bind_ret. unfold state_upto.
      match goal with
      | |- ∃ _ _, prepend _ (comprehension ?f ?rows) = _ ∧ _ =>
          destruct (views_run af (default false o) rows)
            as (l & out & Hrun & _)
      end.
      rewrite Hrun. eexists _, out. split; [done|].
      by eapply slow_results.
    + intros k Hk. by apply broadcastable_columns.
Qed.

(** ** More on [broadcast_arrays] *)

(** X5: called with no operand at all, [broadcast_arrays] raises the
    [ValueError] of [max()] on an empty list; nothing is coerced. *)
Theorem broadcast_arrays_no_operands af (o : option bool) :
  broadcast_arrays af [] (kw_subok o)
  = ([], Raise (ValueError "max() arg is an empty sequence")).
Proof.
  unfold broadcast_arrays. rewrite dict_pop_subok.
  rewrite bool_decide_eq_false_2 by (by intros []).
  by vm_compute.
Qed.

(** The loop over the axes raises at the first axis that is not compatible,
    which is at or before any axis that is not. *)
Lemma raises_at_first_incompatible af (args : list ndarray) o a :
  Forall wf_array args →
  ¬ compatible_lengths (axis_lengths (shape <$> args) a) →
  ∃ k, first_incompatible (shape <$> args) = Some k ∧ k ≤ a ∧
       broadcast_arrays af args (kw_subok o)
       = (coerce_events (default false o) args,
          Raise (ValueError (shape_mismatch_msg k))).
Proof.
  intros Hwf Hno.
  pose proof (incompatible_in_range _ _ Hno) as Ha.
  destruct (list_find_elem_of
              (λ j, ¬ compatible_lengths (axis_lengths (shape <$> args) j))
              (seq 0 (ndmax (shape <$> args))) a) as [[i k] Hfind];
    [apply elem_of_seq; lia | done |].
  assert (first_incompatible (shape <$> args) = Some k) as Hfirst.
  { unfold first_incompatible. rewrite Hfind.
    apply list_find_Some in Hfind as (Hi & _).
    by apply lookup_seq in Hi as [-> _]. }
  exists k. pose proof Hfirst as (Hk & Hnok & Hbefore)%first_incompatible_Some.
  split_and!; [done| |by apply broadcast_arrays_first_incompatible].
  destruct (decide (k ≤ a)); [done|]. destruct Hno. apply Hbefore. lia.
Qed.

(** X6: for operands with one stride per dimension, at least one of them,
    [broadcast_arrays] returns (one array per operand) exactly when the
    aligned shapes are compatible on every axis; otherwise it raises the
    shape-mismatch [ValueError] for the first axis that is not, after
    coercing the operands and before building any view. *)
Theorem broadcast_arrays_returns_iff af (args : list ndarray) o :
  args ≠ [] → Forall wf_array args →
  (broadcastable (shape <$> args) ↔
   ∃ log out, broadcast_arrays af args (kw_subok o) = (log, Return out) ∧
              length out = length args) ∧
  (¬ broadcastable (shape <$> args) →
   ∃ k, first_incompatible (shape <$> args) = Some k ∧
        broadcast_arrays af args (kw_subok o)
        = (coerce_events (default false o) args,
           Raise (ValueError (shape_mismatch_msg k)))).
Proof.
  intros Hne Hwf.
  assert (¬ broadcastable (shape <$> args) →
          ∃ k, first_incompatible (shape <$> args) = Some k ∧
               broadcast_arrays af args (kw_subok o)
               = (coerce_events (default false o) args,
                  Raise (ValueError (shape_mismatch_msg k)))) as Hfail.
  { intros Hno. unfold broadcastable in Hno.
    apply not_Forall_Exists in Hno; [|apply _].
    apply Exists_exists in Hno as (a & _ & Ha).
    destruct (raises_at_first_incompatible af args o a Hwf Ha)
      as (k & Hk & _ & Hrun).
    by exists k. }
  split; [|done]. split.
  - intros Hcompat.
    destruct (broadcast_arrays_returns af args o Hne Hwf Hcompat)
      as (log & out & Hrun & Hout).
    exists log, out. split; [done|]. symmetry. by eapply Forall2_length.
  - intros (log & out & Hrun & _).
    destruct (decide (broadcastable (shape <$> args))) as [|Hno]; [done|].
    destruct (Hfail Hno) as (k & _ & Hraise). congruence.
Qed.

Lemma broadcast_arrays_returns_iff_witness :
  (broadcastable [[2; 1]%Z; [3]%Z] ↔
   ∃ log out,
     broadcast_arrays no_finalize
       [base_array [2; 1]%Z [8; 8]%Z; base_array [3]%Z [8]%Z] (kw_subok None)
     = (log, Return out) ∧ length out = 2) ∧
  (¬ broadcastable [[2; 1]%Z; [3]%Z] →
   ∃ k, first_incompatible [[2; 1]%Z; [3]%Z] = Some k ∧
        broadcast_arrays no_finalize
          [base_array [2; 1]%Z [8; 8]%Z; base_array [3]%Z [8]%Z]
          (kw_subok None)
        = ([Ev_array ndarray_t false; Ev_array ndarray_t false],
           Raise (ValueError (shape_mismatch_msg k)))).
Proof.
  apply (broadcast_arrays_returns_iff no_finalize
           [base_array [2; 1]%Z [8; 8]%Z; base_array [3]%Z [8]%Z] None).
  - done.
  - by repeat constructor.
Defined.

Lemma mismatch_ne1_incompatible ls : mismatch_ne1 ls → ¬ compatible_lengths ls.
Proof.
  intros (a & b & Ha & Hb & Hab & Ha1 & Hb1) [c Hc].
  rewrite Forall_forall in Hc.
  destruct (Hc a Ha), (Hc b Hb); congruence.
Qed.

(** X7: a length of 0 is treated like any length other than 1: when some
    axis of the aligned shapes holds two different lengths that are both
    other than 1 (0 and 3, say), [broadcast_arrays] raises the
    shape-mismatch [ValueError], naming an axis at or before that one. *)
Theorem broadcast_arrays_mismatch_ne1 af (args : list ndarray) o a :
  Forall wf_array args →
  mismatch_ne1 (axis_lengths (shape <$> args) a) →
  ∃ k, k ≤ a ∧
       broadcast_arrays af args (kw_subok o)
       = (coerce_events (default false o) args,
          Raise (ValueError (shape_mismatch_msg k))).
Proof.
  intros Hwf Hmis. apply mismatch_ne1_incompatible in Hmis.
  destruct (raises_at_first_incompatible af args o a Hwf Hmis)
    as (k & _ & Hk & Hrun).
  by exists k.
Qed.

Lemma broadcast_arrays_mismatch_ne1_witness :
  ∃ k, k ≤ 0 ∧
       broadcast_arrays no_finalize
         [base_array [0; 4]%Z [32; 8]%Z; base_array [3; 4]%Z [32; 8]%Z]
         (kw_subok None)
       = ([Ev_array ndarray_t false; Ev_array ndarray_t false],
          Raise (ValueError (shape_mismatch_msg k))).
Proof.
  apply (broadcast_arrays_mismatch_ne1 no_finalize
           [base_array [0; 4]%Z [32; 8]%Z; base_array [3; 4]%Z [32; 8]%Z]
           None 0).
  - by repeat constructor.
  - exists 0%Z, 3%Z. vm_compute. split_and!; try done.
    + apply list_elem_of_here.
    + apply list_elem_of_further, list_elem_of_here.
Defined.

Lemma broadcast_strides_length (shapes : list (list Z)) x :
  shape x ∈ shapes → wf_array x →
  length (broadcast_strides shapes x) = ndmax shapes.
Proof.
  intros Hin Hwf. unfold broadcast_strides. apply stretched_strides_length.
  - by apply length_right_align, ndmax_le.
  - apply common_shape_length.
  - apply length_right_align. rewrite Hwf. by apply ndmax_le.
Qed.

Lemma common_length_cases ls :
  common_length ls = 1%Z ∨ common_length ls ∈ ls.
Proof.
  unfold common_length.
  destruct (filter (λ l, l ≠ 1%Z) ls) as [|l rest] eqn:Hf; simpl; [by left|].
  right. assert (l ∈ filter (λ l, l ≠ 1%Z) ls) as Hin by (rewrite Hf; by left).
  by apply list_elem_of_filter in Hin as [_ ?].
Qed.

Lemma axis_lengths_elem shapes j l :
  l ∈ axis_lengths shapes j → l = 1%Z ∨ ∃ s, s ∈ shapes ∧ l ∈ s.
Proof.
  unfold axis_lengths. intros (s & -> & Hs)%list_elem_of_fmap.
  destruct (right_align (ndmax shapes) 1%Z s !! j) as [v|] eqn:Hv; simpl;
    [|by left].
  apply list_elem_of_lookup_2 in Hv. unfold right_align in Hv.
  apply elem_of_app in Hv as [Hv|Hv].
  - left. by apply elem_of_replicate in Hv as [? _].
  - right. by exists s.
Qed.

Lemma common_shape_nonneg shapes :
  Forall (Forall (λ n, 0 ≤ n)%Z) shapes →
  Forall (λ n, 0 ≤ n)%Z (common_shape shapes).
Proof.
  intros Hnn. unfold common_shape. apply Forall_fmap, Forall_forall.
  intros j _. simpl.
  destruct (common_length_cases (axis_lengths shapes j)) as [->|Hin]; [lia|].
  apply axis_lengths_elem in Hin as [->|(s & Hs & Hl)]; [lia|].
  rewrite Forall_forall in Hnn. specialize (Hnn s Hs).
  rewrite Forall_forall in Hnn. by apply Hnn.
Qed.

Lemma result_operand (shapes : list (list Z)) subok (args out : list ndarray)
    i y :
  Forall2 (broadcast_result shapes subok) args out → out !! i = Some y →
  ∃ x, args !! i = Some x ∧ broadcast_result shapes subok x y.
Proof.
  intros Hall Hy.
  destruct (Forall2_lookup_r _ _ _ _ _ Hall Hy) as (x & Hx & Hxy). eauto.
Qed.

(** X8: [broadcast_arrays] keeps the invariant of array headers: every
    array it returns has one stride per dimension and as many dimensions as
    the operand with the most; and when no operand has a negative length,
    no returned array has one. *)
Theorem broadcast_arrays_keeps_header_invariant af (args : list ndarray) o :
  args ≠ [] → Forall wf_array args → broadcastable (shape <$> args) →
  ∃ log out,
    broadcast_arrays af args (kw_subok o) = (log, Return out) ∧
    Forall (λ y, wf_array y ∧ length (shape y) = ndmax (shape <$> args)) out ∧
    (Forall (λ x, Forall (λ n, 0 ≤ n)%Z (shape x)) args →
     Forall (λ y, Forall (λ n, 0 ≤ n)%Z (shape y)) out).
Proof.
  intros Hne Hwf Hcompat.
  destruct (broadcast_arrays_returns af args o Hne Hwf Hcompat)
    as (log & out & Hrun & Hout).
  exists log, out. split_and!; [done| |].
  - apply Forall_lookup. intros i y Hy.
    destruct (result_operand _ _ _ _ _ _ Hout Hy)
      as (x & Hx & Hsh & Hst & _).
    unfold wf_array. rewrite Hsh, Hst, common_shape_length.
    split; [|done]. apply broadcast_strides_length.
    + apply list_elem_of_fmap. exists x. split; [done|].
      by eapply list_elem_of_lookup_2.
    + by eapply Forall_lookup_1.
  - intros Hnn. apply Forall_lookup. intros i y Hy.
    destruct (result_operand _ _ _ _ _ _ Hout Hy) as (x & Hx & Hsh & _).
    rewrite Hsh. apply common_shape_nonneg. by apply Forall_fmap.
Qed.

Lemma broadcast_arrays_keeps_header_invariant_witness :
  ∃ log out,
    broadcast_arrays no_finalize
      [base_array [2; 1]%Z [8; 8]%Z; base_array [3]%Z [8]%Z] (kw_subok None)
    = (log, Return out) ∧
    Forall (λ y, wf_array y ∧ length (shape y) = ndmax [[2; 1]%Z; [3]%Z]) out ∧
    (Forall (λ x, Forall (λ n, 0 ≤ n)%Z (shape x))
       [base_array [2; 1]%Z [8; 8]%Z; base_array [3]%Z [8]%Z] →
     Forall (λ y, Forall (λ n, 0 ≤ n)%Z (shape y)) out).
Proof.
  apply (broadcast_arrays_keeps_header_invariant no_finalize
           [base_array [2; 1]%Z [8; 8]%Z; base_array [3]%Z [8]%Z] None).
  - done.
  - by repeat constructor.
  - apply (bool_decide_unpack _). by vm_compute.
Defined.

Lemma result_is_coerced (shapes : list (list Z)) subok x y :
  broadcast_result shapes subok x y → coerce subok y = y.
Proof.
  intros (_ & _ & _ & Hcls). destruct subok; [done|].
  apply coerce_base_class. by rewrite Hcls, coerce_cls.
Qed.

(** X9: broadcasting is idempotent: given back to [broadcast_arrays], the
    arrays it returned all have the same shape, so the second call takes
    the fast path and returns them as they are, building no view. *)
Theorem broadcast_arrays_idempotent af (args : list ndarray) o :
  args ≠ [] → Forall wf_array args → broadcastable (shape <$> args) →
  ∃ log out,
    broadcast_arrays af args (kw_subok o) = (log, Return out) ∧
    broadcast_arrays af out (kw_subok o)
    = (coerce_events (default false o) out, Return out).
Proof.
  intros Hne Hwf Hcompat.
  destruct (broadcast_arrays_returns af args o Hne Hwf Hcompat)
    as (log & out & Hrun & Hout).
  exists log, out. split; [done|].
  rewrite broadcast_arrays_fast.
  - do 2 f_equal. rewrite <- (list_fmap_id out) at 2.
    apply list_fmap_ext. intros i y Hy. simpl.
    destruct (result_operand _ _ _ _ _ _ Hout Hy) as (x & _ & Hxy).
    by eapply result_is_coerced.
  - apply (all_equal_size_one _ (common_shape (shape <$> args))).
    + apply Forall2_length in Hout. destruct out; [|done].
      by destruct args.
    + apply Forall_fmap, Forall_lookup. intros i y Hy. simpl.
      by destruct (result_operand _ _ _ _ _ _ Hout Hy) as (x & _ & Hsh & _).
Qed.

Lemma broadcast_arrays_idempotent_witness :
  ∃ log out,
    broadcast_arrays no_finalize
      [base_array [2; 1]%Z [8; 8]%Z; base_array [3]%Z [8]%Z] (kw_subok None)
    = (log, Return out) ∧
    broadcast_arrays no_finalize out (kw_subok None)
    = (coerce_events false out, Return out).
Proof.
  apply (broadcast_arrays_idempotent no_finalize
           [base_array [2; 1]%Z [8; 8]%Z; base_array [3]%Z [8]%Z] None).
  - done.
  - by repeat constructor.
  - apply (bool_decide_unpack _). by vm_compute.
Defined.

(** X10: the docstring's rule for [subok]: without it (or with
    [subok=False]) every returned array is an instance of the base class,
    whatever the classes of the operands; with [subok=True] every returned
    array has the class of its operand. *)
Theorem broadcast_arrays_result_class af (args : list ndarray) o :
  args ≠ [] → Forall wf_array args → broadcastable (shape <$> args) →
  ∃ log out,
    broadcast_arrays af args (kw_subok o) = (log, Return out) ∧
    Forall2 (λ x y, cls y = if default false o then cls x else ndarray_t)
            args out.
Proof.
  intros Hne Hwf Hcompat.
  destruct (broadcast_arrays_returns af args o Hne Hwf Hcompat)
    as (log & out & Hrun & Hout).
  exists log, out. split; [done|].
  eapply Forall2_impl; [done|]. intros x y (_ & _ & _ & Hcls). simpl.
  by rewrite Hcls, coerce_cls.
Qed.

Lemma broadcast_arrays_result_class_witness :
  ∃ log out,
    broadcast_arrays copy_info_finalize
      [info_array [2; 1]%Z [8; 8]%Z [7%Z]; base_array [3]%Z [8]%Z]
      (kw_subok (Some true))
    = (log, Return out) ∧
    Forall2 (λ x y, cls y = if default false (Some true) then cls x
                            else ndarray_t)
            [info_array [2; 1]%Z [8; 8]%Z [7%Z]; base_array [3]%Z [8]%Z] out.
Proof.
  apply (broadcast_arrays_result_class copy_info_finalize
           [info_array [2; 1]%Z [8; 8]%Z [7%Z]; base_array [3]%Z [8]%Z]
           (Some true)).
  - done.
  - by repeat constructor.
  - apply (bool_decide_unpack _). by vm_compute.
Defined.

Lemma stretched_strides_padding n c :
  length c = n →
  stretched_strides (replicate n 1%Z) c (replicate n 0%Z) = replicate n 0%Z.
Proof.
  revert c. induction n as [|n IH]; intros [|cj c] Hlen; simpl in *;
    try done.
  rewrite IH by lia. by case_decide.
Qed.

(** X11: a 0-dimensional operand is repeated along every axis: the array
    returned for it has stride 0 on all axes of the common shape. *)
Theorem broadcast_arrays_scalar_operand af (args : list ndarray) o :
  args ≠ [] → Forall wf_array args → broadcastable (shape <$> args) →
  ∃ log out,
    broadcast_arrays af args (kw_subok o) = (log, Return out) ∧
    Forall2 (λ x y, shape x = [] →
                    strides y = replicate (ndmax (shape <$> args)) 0%Z)
            args out.
Proof.
  intros Hne Hwf Hcompat.
  destruct (broadcast_arrays_returns af args o Hne Hwf Hcompat)
    as (log & out & Hrun & Hout).
  exists log, out. split; [done|].
  apply Forall2_same_length_lookup. split; [by eapply Forall2_length|].
  intros i x y Hx Hy Hscalar.
  destruct (Forall2_lookup_lr _ _ _ _ _ _ Hout Hx Hy) as (_ & Hst & _).
  pose proof (Forall_lookup_1 _ _ _ _ Hwf Hx) as Hwfx.
  unfold wf_array in Hwfx. rewrite Hscalar in Hwfx.
  apply nil_length_inv in Hwfx.
  rewrite Hst. unfold broadcast_strides, right_align.
  rewrite Hscalar, Hwfx. simpl. rewrite !app_nil_r, Nat.sub_0_r.
  apply stretched_strides_padding, common_shape_length.
Qed.

Lemma broadcast_arrays_scalar_operand_witness :
  ∃ log out,
    broadcast_arrays no_finalize
      [base_array []%Z []%Z; base_array [2; 3]%Z [24; 8]%Z] (kw_subok None)
    = (log, Return out) ∧
    Forall2 (λ x y, shape x = [] →
                    strides y = replicate (ndmax [[]; [2; 3]%Z]) 0%Z)
            [base_array []%Z []%Z; base_array [2; 3]%Z [24; 8]%Z] out.
Proof.
  apply (broadcast_arrays_scalar_operand no_finalize
           [base_array []%Z []%Z; base_array [2; 3]%Z [24; 8]%Z] None).
  - done.
  - by repeat constructor.
  - apply (bool_decide_unpack _). by vm_compute.
Defined.

(** ** Which element a view reads *)

Lemma offset_padding d c1 i1 p c2 t i2 :
  length c1 = d → length i1 = d →
  offset (stretched_strides (replicate d 1%Z ++ p) (c1 ++ c2)
            (replicate d 0%Z ++ t)) (i1 ++ i2)
  = offset (stretched_strides p c2 t) i2.
Proof.
  revert c1 i1. induction d as [|d IH]; intros [|cj c1] [|i i1] Hc Hi;
    simpl in *; try done.
  rewrite IH by lia. case_decide; lia.
Qed.

Lemma offset_stretched sx c2 tx i2 :
  Forall2 (λ l c, l = c ∨ l = 1%Z) sx c2 → in_bounds c2 i2 →
  length tx = length sx →
  offset (stretched_strides sx c2 tx) i2
  = offset tx (zip_with (λ n i, if decide (n = 1%Z) then 0%Z else i) sx i2)
  ∧ in_bounds sx
      (zip_with (λ n i, if decide (n = 1%Z) then 0%Z else i) sx i2).
Proof.
  intros Hcompat. revert tx i2.
  induction Hcompat as [|l c sx c2 Hl _ IH]; intros tx i2 Hb Hlen.
  { destruct tx; [|done]. simpl. split; [done|constructor]. }
  destruct tx as [|v tx]; [done|].
  apply Forall2_cons_inv_l in Hb as (i & i2' & Hi & Hb & ->).
  simpl in *. destruct (IH tx i2' Hb ltac:(lia)) as [-> Hin].
  destruct (decide (l = 1%Z)) as [->|Hne].
  - split; [|by constructor].
    destruct (decide (c = 1%Z)) as [->|Hc].
    + rewrite decide_False by (by intros [_ ?]).
      assert (i = 0%Z) as -> by lia. lia.
    + rewrite decide_True by done. lia.
  - rewrite decide_False by (by intros [? _]).
    split; [done|]. constructor; [|done]. destruct Hl; [subst; lia|done].
Qed.

Lemma operand_compatible (shapes : list (list Z)) (sx : list Z) :
  broadcastable shapes → sx ∈ shapes →
  Forall2 (λ l c, l = c ∨ l = 1%Z) sx
          (drop (ndmax shapes - length sx) (common_shape shapes)).
Proof.
  intros Hcompat Hin.
  pose proof (ndmax_le _ _ Hin) as Hle.
  apply Forall2_same_length_lookup. split.
  { rewrite length_drop, common_shape_length. lia. }
  intros k l c Hl Hc. rewrite lookup_drop in Hc.
  assert (ndmax shapes - length sx + k < ndmax shapes) as Hj.
  { apply lookup_lt_Some in Hl. lia. }
  unfold common_shape in Hc.
  rewrite list_lookup_fmap, lookup_seq_lt in Hc by done.
  injection Hc as <-. simpl.
  unfold broadcastable in Hcompat. rewrite Forall_forall in Hcompat.
  specialize (Hcompat (ndmax shapes - length sx + k)
                ltac:(apply elem_of_seq; lia)).
  apply compatible_lengths_common in Hcompat.
  rewrite Forall_forall in Hcompat. apply Hcompat.
  unfold axis_lengths. apply list_elem_of_fmap. exists sx. split; [|done].
  unfold right_align. rewrite lookup_app_r by (rewrite length_replicate; lia).
  rewrite length_replicate.
  replace (ndmax shapes - length sx + k - (ndmax shapes - length sx)) with k
    by lia.
  by rewrite Hl.
Qed.

(** X12: what a broadcast view reads: for every index [idx] within the
    shape of the array returned for operand [x], the element addressed is
    the element of [x] at [source_index (shape x) idx] (the axes added on
    the left dropped, every length-1 axis of [x] read at 0), which is an
    index within the shape of [x]. *)
Theorem broadcast_arrays_reads_operand af (args : list ndarray) o :
  args ≠ [] → Forall wf_array args → broadcastable (shape <$> args) →
  ∃ log out,
    broadcast_arrays af args (kw_subok o) = (log, Return out) ∧
    Forall2
      (λ x y, buffer y = buffer x ∧
              ∀ idx, in_bounds (shape y) idx →
                     in_bounds (shape x) (source_index (shape x) idx) ∧
                     offset (strides y) idx
                     = offset (strides x) (source_index (shape x) idx))
      args out.
Proof.
  intros Hne Hwf Hcompat.
  destruct (broadcast_arrays_returns af args o Hne Hwf Hcompat)
    as (log & out & Hrun & Hout).
  exists log, out. split; [done|].
  apply Forall2_same_length_lookup. split; [by eapply Forall2_length|].
  intros i x y Hx Hy.
  destruct (Forall2_lookup_lr _ _ _ _ _ _ Hout Hx Hy)
    as (Hsh & Hst & Hbuf & _).
  split; [done|]. intros idx Hidx.
  assert (shape x ∈ shape <$> args) as Hin.
  { apply list_elem_of_fmap. exists x. split; [done|].
    by eapply list_elem_of_lookup_2. }
  pose proof (Forall_lookup_1 _ _ _ _ Hwf Hx) as Hwfx.
  unfold wf_array in Hwfx.
  pose proof (ndmax_le _ _ Hin) as Hle.
  set (nd := ndmax (shape <$> args)) in *.
  set (d := nd - length (shape x)).
  rewrite Hsh in Hidx.
  assert (length idx = nd) as Hlen.
  { apply Forall2_length in Hidx. by rewrite common_shape_length in Hidx. }
  assert (∃ i1 i2, idx = i1 ++ i2 ∧ length i1 = d) as (i1 & i2 & -> & Hi1).
  { exists (take d idx), (drop d idx). rewrite take_drop, length_take.
    split; [done|lia]. }
  assert (∃ c1 c2, common_shape (shape <$> args) = c1 ++ c2 ∧ length c1 = d
                   ∧ c2 = drop d (common_shape (shape <$> args)))
    as (c1 & c2 & Hc & Hc1 & Hc2).
  { exists (take d (common_shape (shape <$> args))),
           (drop d (common_shape (shape <$> args))).
    rewrite take_drop, length_take, common_shape_length. fold nd.
    split_and!; [done|lia|done]. }
  rewrite Hc in Hidx.
  apply Forall2_app_inv in Hidx as [_ Hidx2]; [|lia].
  rewrite Hst. unfold broadcast_strides, source_index, right_align.
  fold nd. rewrite Hwfx, Hlen, Hc. fold d.
  rewrite offset_padding by done.
  rewrite drop_app_length' by done.
  destruct (offset_stretched (shape x) c2 (strides x) i2)
    as [Hoff Hb]; [|done|done|by split].
  rewrite Hc2. by apply operand_compatible.
Qed.

Lemma broadcast_arrays_reads_operand_witness :
  ∃ log out,
    broadcast_arrays no_finalize
      [base_array [1; 3]%Z [24; 8]%Z; base_array [3; 1]%Z [8; 8]%Z]
      (kw_subok None)
    = (log, Return out) ∧
    Forall2
      (λ x y, buffer y = buffer x ∧
              ∀ idx, in_bounds (shape y) idx →
                     in_bounds (shape x) (source_index (shape x) idx) ∧
                     offset (strides y) idx
                     = offset (strides x) (source_index (shape x) idx))
      [base_array [1; 3]%Z [24; 8]%Z; base_array [3; 1]%Z [8; 8]%Z] out.
Proof.
  apply (broadcast_arrays_reads_operand no_finalize
           [base_array [1; 3]%Z [24; 8]%Z; base_array [3; 1]%Z [8; 8]%Z] None).
  - done.
  - by repeat constructor.
  - apply (bool_decide_unpack _). by vm_compute.
Defined.

Lemma offset_app st1 st2 i1 i2 :
  length st1 = length i1 →
  offset (st1 ++ st2) (i1 ++ i2) = (offset st1 i1 + offset st2 i2)%Z.
Proof.
  revert i1. induction st1 as [|s st1 IH]; intros [|i i1] Hlen;
    simpl in *; try done.
  rewrite IH by lia. lia.
Qed.

Lemma last_split {A} (l : list A) x :
  last l = Some x → l = removelast l ++ [x].
Proof.
  intros [l' ->]%last_Some. by rewrite removelast_last.
Qed.

Lemma rolling_window_returns af (a : ndarray) (window n st : Z) :
  last (shape a) = Some n → last (strides a) = Some st →
  (1 ≤ window ≤ n)%Z →
  rolling_window af a window
  = (strided_log af a
       (Some (removelast (shape a) ++ [(n - window + 1)%Z; window]))
       (Some (strides a ++ [st])) false,
     Return (strided_view af a
       (Some (removelast (shape a) ++ [(n - window + 1)%Z; window]))
       (Some (strides a ++ [st])) false)).
Proof.
  intros Hn Hst Hw. unfold rolling_window, getitem_last. rewrite Hn, Hst.
  rewrite bool_decide_eq_false_2 by lia. rewrite bind_ret.
  rewrite bool_decide_eq_false_2 by lia. rewrite bind_ret.
  apply as_strided_closed.
Qed.

(** X13: what a rolling window reads: for an array of last length [n] and
    [1 <= window <= n], element [(..., i, j)] of the result is element
    [(..., i + j)] of the array, and every index within the shape of the
    result stands for an index within the shape of the array: the windows
    never reach past the last axis. *)
Theorem rolling_window_reads_window af (a : ndarray) (window n : Z) :
  wf_array a → last (shape a) = Some n → (1 ≤ window ≤ n)%Z →
  ∃ log y,
    rolling_window af a window = (log, Return y) ∧
    buffer y = buffer a ∧
    ∀ pre i j,
      in_bounds (shape y) (pre ++ [i; j]) →
      in_bounds (shape a) (pre ++ [(i + j)%Z]) ∧
      offset (strides y) (pre ++ [i; j])
      = offset (strides a) (pre ++ [(i + j)%Z]).
Proof.
  intros Hwf Hn Hw.
  assert (∃ st, last (strides a) = Some st) as [st Hst].
  { destruct (last (strides a)) as [st|] eqn:Hl; [by eexists|].
    apply last_None in Hl. apply last_Some in Hn as [l' Hn].
    unfold wf_array in Hwf. rewrite Hl, Hn, length_app in Hwf.
    simpl in Hwf. lia. }
  rewrite (rolling_window_returns af a window n st) by done.
  eexists _, _. split; [done|]. simpl. split; [done|].
  intros pre i j Hb.
  pose proof (last_split _ _ Hn) as Hshape.
  pose proof (last_split _ _ Hst) as Hstrides.
  set (rs := removelast (shape a)) in *.
  set (sts := removelast (strides a)) in *.
  assert (length sts = length rs) as Hlen.
  { unfold wf_array in Hwf. rewrite Hshape, Hstrides, !length_app in Hwf.
    simpl in Hwf. lia. }
  assert (length rs = length pre) as Hpre.
  { apply Forall2_length in Hb. rewrite !length_app in Hb. simpl in Hb. lia. }
  apply Forall2_app_inv in Hb as [Hpre_b Hij]; [|done].
  apply Forall2_cons_1 in Hij as [Hi Hij].
  apply Forall2_cons_1 in Hij as [Hj _].
  split.
  - rewrite Hshape. apply Forall2_app; [done|].
    constructor; [lia|constructor].
  - rewrite Hstrides, <- app_assoc.
    rewrite !offset_app by lia. simpl. lia.
Qed.

Lemma rolling_window_reads_window_witness :
  ∃ log y,
    rolling_window no_finalize (base_array [2; 5]%Z [40; 8]%Z) 3
    = (log, Return y) ∧
    buffer y = 4096%Z ∧
    ∀ pre i j,
      in_bounds (shape y) (pre ++ [i; j]) →
      in_bounds [2; 5]%Z (pre ++ [(i + j)%Z]) ∧
      offset (strides y) (pre ++ [i; j])
      = offset [40; 8]%Z (pre ++ [(i + j)%Z]).
Proof.
  apply (rolling_window_reads_window no_finalize
           (base_array [2; 5]%Z [40; 8]%Z) 3 5).
  - reflexivity.
  - reflexivity.
  - lia.
Defined.

(** X14: on a 0-dimensional array [rolling_window] has no last axis to
    look at: with [window >= 1] the lookup [a.shape[-1]] raises an
    [IndexError]; with [window < 1] the [ValueError] for the window comes
    first.  Nothing is built in either case. *)
Theorem rolling_window_zero_dimensional af (a : ndarray) (window : Z) :
  shape a = [] →
  rolling_window af a window
  = ([], Raise (if bool_decide (window < 1)%Z
                then ValueError "`window` must be at least 1."
                else IndexError "tuple index out of range")).
Proof.
  intros Hshape. unfold rolling_window, getitem_last. rewrite Hshape.
  by case_bool_decide.
Qed.

Lemma rolling_window_zero_dimensional_witness :
  rolling_window no_finalize (base_array [] []) 1
  = ([], Raise (if bool_decide (1 < 1)%Z
                then ValueError "`window` must be at least 1."
                else IndexError "tuple index out of range")).
Proof.
  apply (rolling_window_zero_dimensional no_finalize (base_array [] []) 1).
  reflexivity.
Defined.

(** X15: [rolling_window] keeps the invariant of array headers and adds one
    dimension: the result has one stride per dimension, one dimension more
    than the array, no negative length when the array has none, and is an
    instance of the base class whatever the class of the array, no subclass
    view being taken. *)
Theorem rolling_window_keeps_header_invariant af (a : ndarray)
    (window n : Z) :
  wf_array a → last (shape a) = Some n → (1 ≤ window ≤ n)%Z →
  ∃ log y,
    rolling_window af a window = (log, Return y) ∧
    wf_array y ∧
    length (shape y) = S (length (shape a)) ∧
    (Forall (λ m, 0 ≤ m)%Z (shape a) → Forall (λ m, 0 ≤ m)%Z (shape y)) ∧
    cls y = ndarray_t ∧
    Forall (λ e, is_subclass_event e = false) log.
Proof.
  intros Hwf Hn Hw.
  assert (∃ st, last (strides a) = Some st) as [st Hst].
  { destruct (last (strides a)) as [st|] eqn:Hl; [by eexists|].
    apply last_None in Hl. apply last_Some in Hn as [l' Hn].
    unfold wf_array in Hwf. rewrite Hl, Hn, length_app in Hwf.
    simpl in Hwf. lia. }
  rewrite (rolling_window_returns af a window n st) by done.
  eexists _, _. split; [done|].
  pose proof (last_split _ _ Hn) as Hshape.
  unfold wf_array, strided_view, strided_log in *. simpl.
  rewrite coerce_cls, decide_True by done.
  assert (length (removelast (shape a)) + 1 = length (shape a)) as Hrl.
  { rewrite Hshape at 2. rewrite length_app. simpl. lia. }
  split_and!.
  - rewrite !length_app. simpl. lia.
  - rewrite length_app. simpl. lia.
  - intros Hnn. rewrite Hshape in Hnn.
    apply Forall_app in Hnn as [Hrs _].
    apply Forall_app. split; [done|]. repeat constructor; lia.
  - done.
  - by repeat constructor.
Qed.

Lemma rolling_window_keeps_header_invariant_witness :
  ∃ log y,
    rolling_window copy_info_finalize (info_array [2; 5]%Z [40; 8]%Z [7%Z]) 3
    = (log, Return y) ∧
    wf_array y ∧
    length (shape y) = 3 ∧
    (Forall (λ m, 0 ≤ m)%Z [2; 5]%Z → Forall (λ m, 0 ≤ m)%Z (shape y)) ∧
    cls y = ndarray_t ∧
    Forall (λ e, is_subclass_event e = false) log.
Proof.
  apply (rolling_window_keeps_header_invariant copy_info_finalize
           (info_array [2; 5]%Z [40; 8]%Z [7%Z]) 3 5).
  - reflexivity.
  - reflexivity.
  - lia.
Defined.

End StrideTricksFacts.

(** * Facts about the override protocol *)

Module OverridesFacts.

Import Overrides.

(** ** The assertions of [TestGetImplementingArgs] *)

Example test_ndarray :
  resolveCandidates [array] = Ok [array] ∧
  resolveCandidates [array; array] = Ok [array] ∧
  resolveCandidates [array; one] = Ok [array] ∧
  resolveCandidates [one; array] = Ok [array].
Proof. by vm_compute. Qed.

Example test_ndarray_subclasses :
  resolveCandidates [array; override_sub] = Ok [override_sub; array] ∧
  resolveCandidates [array; no_override_sub] = Ok [no_override_sub; array] ∧
  resolveCandidates [override_sub; no_override_sub]
  = Ok [override_sub; no_override_sub].
Proof. by vm_compute. Qed.

Example test_ndarray_and_duck_array :
  resolveCandidates [other; array] = Ok [other; array] ∧
  resolveCandidates [array; other] = Ok [array; other].
Proof. by vm_compute. Qed.

Example test_ndarray_subclass_and_duck_array :
  resolveCandidates [array; override_sub; other]
  = Ok [override_sub; array; other] ∧
  resolveCandidates [array; other; override_sub]
  = Ok [override_sub; array; other].
Proof. by vm_compute. Qed.

Example test_many_duck_arrays :
  resolveCandidates [one] = Ok [] ∧
  resolveCandidates [a] = Ok [a] ∧
  resolveCandidates [a; one] = Ok [a] ∧
  resolveCandidates [a; a; a] = Ok [a] ∧
  resolveCandidates [a; d; a] = Ok [a; d] ∧
  resolveCandidates [a; b] = Ok [b; a] ∧
  resolveCandidates [b; a] = Ok [b; a] ∧
  resolveCandidates [a; b; c] = Ok [b; c; a] ∧
  resolveCandidates [a; c; b] = Ok [c; b; a].
Proof. by vm_compute. Qed.

Example test_too_many_duck_arrays :
  resolveCandidates (duck <$> seq 0 32) = Ok (duck <$> seq 0 32) ∧
  resolveCandidates (duck <$> seq 0 33)
  = Failed (TooManyCandidateTypesError 32).
Proof. by vm_compute. Qed.

(** ** The class hierarchy *)

Lemma issubclass_unfold t u :
  issubclass t u
  = if decide (t = u) then true
    else match t with PyObject => false | PyClass _ _ b => issubclass b u end.
Proof. by destruct t. Qed.

Lemma issubclass_refl t : issubclass t t = true.
Proof. rewrite issubclass_unfold. by rewrite decide_True. Qed.

Lemma issubclass_depth t u :
  issubclass t u = true → t = u ∨ depth u < depth t.
Proof.
  induction t as [|n h b IH]; rewrite issubclass_unfold;
    case_decide; auto; [done|].
  intros Hb. right. destruct (IH Hb) as [->|]; simpl; lia.
Qed.

Lemma issubclass_antisym t u :
  issubclass t u = true → issubclass u t = true → t = u.
Proof.
  intros [?|?]%issubclass_depth [?|?]%issubclass_depth; try done. lia.
Qed.

Lemma issubclass_trans t u v :
  issubclass t u = true → issubclass u v = true → issubclass t v = true.
Proof.
  induction t as [|n h b IH]; rewrite (issubclass_unfold _ u);
    case_decide as Htu; subst; auto; [done|].
  intros Hb Huv. rewrite issubclass_unfold. case_decide; [done|]. auto.
Qed.

(** ** Where a candidate is inserted *)

Lemma insert_candidate_perm arg placed :
  insert_candidate arg placed ≡ₚ arg :: placed.
Proof.
  induction placed as [|old rest IH]; simpl; [done|].
  destruct (issubclass _ _); [done|]. rewrite IH. apply Permutation_swap.
Qed.

Lemma elem_of_insert_candidate arg placed x :
  x ∈ insert_candidate arg placed ↔ x = arg ∨ x ∈ placed.
Proof. by rewrite insert_candidate_perm, elem_of_cons. Qed.

Lemma insert_candidate_sublist arg placed :
  placed `sublist_of` insert_candidate arg placed.
Proof.
  induction placed as [|old rest IH]; simpl; [apply sublist_nil_l|].
  destruct (issubclass _ _); [by apply sublist_cons|by apply sublist_skip].
Qed.

Lemma insert_candidate_append arg placed :
  Forall (λ old, issubclass (type_of arg) (type_of old) = false) placed →
  insert_candidate arg placed = placed ++ [arg].
Proof.
  induction 1 as [|old rest Hold _ IH]; simpl; [done|].
  by rewrite Hold, IH.
Qed.

Lemma insert_candidate_sorted arg placed :
  NoDup (type_of <$> arg :: placed) → subclass_first placed →
  subclass_first (insert_candidate arg placed).
Proof.
  induction placed as [|old rest IH]; intros Hnd Hsorted; simpl.
  { by split. }
  destruct Hsorted as [Hold Hrest].
  apply NoDup_cons in Hnd as [Harg Hnd]. simpl in Harg.
  apply not_elem_of_cons in Harg as [Hne Harg].
  pose proof Hnd as [Hold_new Hnd_rest]%NoDup_cons.
  destruct (issubclass (type_of arg) (type_of old)) eqn:Hsub; simpl.
  - split_and!; [|done..].
    apply Forall_cons. split.
    + intros [_ Hback]. apply Hne. by apply issubclass_antisym.
    + apply Forall_forall. intros x Hx [Hxne Hxsub].
      rewrite Forall_forall in Hold. apply (Hold x Hx). split.
      * intros Heq. apply Hold_new. rewrite <- Heq.
        apply list_elem_of_fmap. by exists x.
      * by eapply issubclass_trans.
  - split.
    + apply Forall_forall. intros x Hx.
      apply elem_of_insert_candidate in Hx as [->|Hx].
      * intros [_ H]. congruence.
      * rewrite Forall_forall in Hold. by apply Hold.
    + apply IH; [|done]. simpl. apply NoDup_cons. by split.
Qed.

Lemma subclass_first_lookup l i j x y :
  subclass_first l → l !! i = Some x → l !! j = Some y → i < j →
  ¬ strict_subclass (type_of y) (type_of x).
Proof.
  revert i j. induction l as [|z l IH]; intros i j Hs Hi Hj Hij; [done|].
  destruct Hs as [Hz Hl].
  destruct i as [|i], j as [|j]; try lia; simpl in *.
  - injection Hi as ->. rewrite Forall_forall in Hz. apply Hz.
    by eapply list_elem_of_lookup_2.
  - apply (IH i j); [done..|lia].
Qed.

(** A strict subclass stands before its ancestor. *)
Lemma subclass_first_precedes l i j x y :
  subclass_first l → l !! i = Some x → l !! j = Some y →
  strict_subclass (type_of x) (type_of y) → i < j.
Proof.
  intros Hl Hi Hj Hsub.
  destruct (Nat.lt_trichotomy i j) as [?|[->|Hji]]; [done| |].
  - rewrite Hi in Hj. injection Hj as ->. by destruct Hsub.
  - by destruct (subclass_first_lookup l j i y x).
Qed.

Lemma sublist_precedes (r : list pyobj) x y :
  [x; y] `sublist_of` r → precedes r x y.
Proof.
  intros (k1 & k2 & -> & (k3 & k4 & -> & _)%sublist_cons_l)%sublist_cons_l.
  exists (length k1), (length k1 + S (length k3)). split_and!; [| |lia].
  - by rewrite list_lookup_middle.
  - rewrite lookup_app_r by lia.
    replace (length k1 + S (length k3) - length k1) with (S (length k3)) by lia.
    simpl. by rewrite list_lookup_middle.
Qed.

(** ** The scan *)

Lemma good_nil : good [].
Proof. split; simpl; [constructor | done | constructor | lia]. Qed.

Lemma consider_cases placed arg :
  (¬ new_type placed arg ∧ consider placed arg = Ok placed)
  ∨ (new_type placed arg ∧ length placed < max_candidate_types ∧
     consider placed arg = Ok (insert_candidate arg placed))
  ∨ (new_type placed arg ∧ max_candidate_types ≤ length placed ∧
     consider placed arg = Failed (TooManyCandidateTypesError max_candidate_types)).
Proof.
  unfold consider, new_type.
  destruct (has_array_function (type_of arg)); simpl.
  - case_bool_decide as Hin; simpl.
    + left. split; [|done]. by intros [_ ?].
    + right. case_bool_decide; [right|left]; split_and!; done || lia.
  - left. split; [|done]. by intros [? _].
Qed.

Lemma same_type_same_candidate (l : list pyobj) x y :
  NoDup (type_of <$> l) → x ∈ l → y ∈ l → type_of x = type_of y → x = y.
Proof.
  intros Hnd Hx Hy Heq.
  apply list_elem_of_lookup in Hx as [i Hi].
  apply list_elem_of_lookup in Hy as [j Hj].
  assert (i = j) as ->; [|congruence].
  apply (NoDup_lookup _ _ _ (type_of x) Hnd).
  - by rewrite list_lookup_fmap, Hi.
  - by rewrite list_lookup_fmap, Hj, Heq.
Qed.

Lemma good_insert placed arg :
  good placed → new_type placed arg → length placed < max_candidate_types →
  good (insert_candidate arg placed).
Proof.
  intros [Hnd Hs Hc Hl] [Hcap Hnew] Hlt.
  assert (NoDup (type_of <$> arg :: placed)) as Hnd'
    by (simpl; by apply NoDup_cons).
  split.
  - by rewrite insert_candidate_perm.
  - by apply insert_candidate_sorted.
  - rewrite insert_candidate_perm. by apply Forall_cons.
  - rewrite insert_candidate_perm. simpl. lia.
Qed.

Lemma resolve_from_ok args : ∀ placed r,
  good placed → resolve_from placed args = Ok r →
  good r ∧ placed `sublist_of` r ∧
  (∀ t, t ∈ type_of <$> r ↔
        t ∈ type_of <$> placed
        ∨ (t ∈ type_of <$> args ∧ has_array_function t = true)) ∧
  (∀ c, c ∈ r →
        c ∈ placed
        ∨ ∃ pre post, args = pre ++ c :: post ∧ type_of c ∉ type_of <$> pre).
Proof.
  induction args as [|arg rest IH]; intros placed r Hgood Hrun; simpl in Hrun.
  { injection Hrun as <-. split_and!; [done..| |by left].
    intros t. simpl. split; [by left|]. intros [?|[[]%elem_of_nil _]]; done. }
  destruct (consider_cases placed arg)
    as [(Hold & Hc)|[(Hnew & Hlt & Hc)|(Hnew & Hge & Hc)]];
    rewrite Hc in Hrun; [| |done].
  - destruct (IH placed r Hgood Hrun) as (Hr & Hsub & Hty & Hfirst).
    split_and!; [done..| |].
    + intros t. rewrite Hty. simpl. rewrite elem_of_cons.
      split; [naive_solver|].
      intros [?|[[->|?] Hcap]]; [by left| |by right].
      left. destruct (decide (type_of arg ∈ type_of <$> placed)); [done|].
      by destruct Hold.
    + intros c Hcr. destruct (Hfirst c Hcr) as [?|(pre & post & -> & Hpre)];
        [by left|].
      destruct (decide (type_of c = type_of arg)) as [Heq|Hne].
      * left. assert (type_of c ∈ type_of <$> placed) as Hin.
        { rewrite Heq.
          destruct (decide (type_of arg ∈ type_of <$> placed)); [done|].
          destruct Hold. split; [|done]. rewrite <- Heq.
          by apply (proj1 (Forall_forall _ _) (good_capable _ Hr)). }
        apply list_elem_of_fmap in Hin as (c' & Heq' & Hc').
        assert (c = c') as ->; [|done].
        apply (same_type_same_candidate r); [apply Hr|done| |done].
        by eapply elem_of_sublist.
      * right. exists (arg :: pre), post. split; [done|].
        simpl. by apply not_elem_of_cons.
  - pose proof (good_insert _ _ Hgood Hnew Hlt) as Hgood'.
    destruct (IH _ r Hgood' Hrun) as (Hr & Hsub & Hty & Hfirst).
    assert (arg ∈ r) as Harg.
    { eapply elem_of_sublist; [|done]. apply elem_of_insert_candidate. by left. }
    split_and!; [done| | |].
    + etrans; [apply insert_candidate_sublist|done].
    + intros t. rewrite Hty, insert_candidate_perm. simpl.
      rewrite !elem_of_cons. destruct Hnew as [Hcap _].
      split; [naive_solver|]. intros [?|[[->|?] ?]]; naive_solver.
    + intros c Hcr.
      destruct (decide (type_of c = type_of arg)) as [Heq|Hne].
      * right. exists [], rest.
        assert (c = arg) as ->; [|split; [done|apply not_elem_of_nil]].
        by apply (same_type_same_candidate r); [apply Hr|..].
      * destruct (Hfirst c Hcr) as [Hin|(pre & post & -> & Hpre)].
        -- apply elem_of_insert_candidate in Hin as [->|?]; [done|by left].
        -- right. exists (arg :: pre), post. split; [done|].
           simpl. by apply not_elem_of_cons.
Qed.

Lemma resolve_from_failed args : ∀ placed e,
  good placed → resolve_from placed args = Failed e →
  e = TooManyCandidateTypesError max_candidate_types ∧
  ∃ ts, NoDup ts ∧ max_candidate_types < length ts ∧
        ∀ t, t ∈ ts → has_array_function t = true ∧
                      (t ∈ type_of <$> placed ∨ t ∈ type_of <$> args).
Proof.
  induction args as [|arg rest IH]; intros placed e Hgood Hrun;
    simpl in Hrun; [done|].
  destruct (consider_cases placed arg)
    as [(Hold & Hc)|[(Hnew & Hlt & Hc)|(Hnew & Hge & Hc)]];
    rewrite Hc in Hrun.
  - destruct (IH placed e Hgood Hrun) as (-> & ts & Hnd & Hlen & Hts).
    split; [done|]. exists ts. split_and!; [done..|].
    intros t Ht. destruct (Hts t Ht) as [? [?|?]]; split; auto.
    right. simpl. by right.
  - pose proof (good_insert _ _ Hgood Hnew Hlt) as Hgood'.
    destruct (IH _ e Hgood' Hrun) as (-> & ts & Hnd & Hlen & Hts).
    split; [done|]. exists ts. split_and!; [done..|].
    intros t Ht. destruct (Hts t Ht) as [? Hin]. split; [done|].
    rewrite insert_candidate_perm in Hin. simpl in *.
    rewrite !elem_of_cons in *. naive_solver.
  - injection Hrun as <-. split; [done|].
    exists (type_of arg :: (type_of <$> placed)).
    destruct Hnew as [Hcap Hnew]. split_and!.
    + apply NoDup_cons. split; [done|apply Hgood].
    + simpl. rewrite length_fmap. lia.
    + intros t [->|Ht]%elem_of_cons.
      * split; [done|]. right. by left.
      * split; [|by left].
        apply list_elem_of_fmap in Ht as (x & -> & Hx).
        by apply (proj1 (Forall_forall _ _) (good_capable _ Hgood)).
Qed.

Lemma resolve_from_app pre post : ∀ placed,
  resolve_from placed (pre ++ post)
  = match resolve_from placed pre with
    | Ok placed' => resolve_from placed' post
    | Failed e => Failed e
    end.
Proof.
  induction pre as [|arg pre IH]; intros placed; simpl; [done|].
  destruct (consider placed arg); [apply IH|done].
Qed.

Lemma candidate_types_spec args t :
  t ∈ candidate_types args ↔
  t ∈ type_of <$> args ∧ has_array_function t = true.
Proof.
  unfold candidate_types. rewrite elem_of_remove_dups, list_elem_of_filter.
  naive_solver.
Qed.

Lemma resolveCandidates_types args r :
  resolveCandidates args = Ok r → type_of <$> r ≡ₚ candidate_types args.
Proof.
  intros Hrun.
  destruct (resolve_from_ok args [] r good_nil Hrun) as (Hr & _ & Hty & _).
  apply NoDup_Permutation; [apply Hr|apply NoDup_remove_dups|].
  intros t. rewrite Hty, candidate_types_spec. simpl.
  split; [|by right]. intros [[]%elem_of_nil|?]; done.
Qed.

(** The scan fails exactly when the cap is exceeded. *)
Lemma resolveCandidates_total args :
  length (candidate_types args) ≤ max_candidate_types →
  ∃ r, resolveCandidates args = Ok r.
Proof.
  intros Hle. destruct (resolveCandidates args) as [r|e] eqn:Hrun; [by eexists|].
  destruct (resolve_from_failed args [] e good_nil Hrun)
    as (_ & ts & Hnd & Hlen & Hts).
  assert (ts ⊆+ candidate_types args) as Hsub.
  { apply NoDup_submseteq; [done|]. intros t Ht.
    apply candidate_types_spec. destruct (Hts t Ht) as [? [[]%elem_of_nil|?]].
    done. }
  apply submseteq_length in Hsub. lia.
Qed.

Lemma resolveCandidates_candidate_ordering args r :
  resolveCandidates args = Ok r → candidate_ordering args r.
Proof.
  intros Hrun.
  destruct (resolve_from_ok args [] r good_nil Hrun)
    as (Hr & _ & Hty & Hfirst).
  split_and!.
  - apply Hr.
  - intros x Hx Hcap. apply Hty. right. split; [|done].
    apply list_elem_of_fmap. by exists x.
  - intros c Hc. split.
    + by apply (proj1 (Forall_forall _ _) (good_capable _ Hr)).
    + by destruct (Hfirst c Hc) as [[]%elem_of_nil|?].
  - intros i j x y. apply subclass_first_precedes, Hr.
  - intros pre y post x -> Hy Hynew Hanc Hx Hxpre.
    unfold resolveCandidates in Hrun. rewrite resolve_from_app in Hrun.
    destruct (resolve_from [] pre) as [p1|] eqn:Hpre; [|done].
    destruct (resolve_from_ok pre [] p1 good_nil Hpre)
      as (Hp1 & _ & Hty1 & Hfirst1).
    simpl in Hrun.
    assert (has_array_function (type_of y) = true) as Hycap
      by (by apply (proj1 (Forall_forall _ _) (good_capable _ Hr))).
    assert (type_of y ∉ type_of <$> p1) as Hyp1.
    { rewrite Hty1. intros [[]%elem_of_nil|[? _]]. done. }
    destruct (consider_cases p1 y)
      as [(Hold & Hc)|[(Hnew & Hlt & Hc)|(Hnew & Hge & Hc)]];
      rewrite Hc in Hrun; [by destruct Hold | | done].
    assert (insert_candidate y p1 = p1 ++ [y]) as Hins.
    { apply insert_candidate_append, Forall_forall. intros old Hold.
      destruct (Hfirst1 old Hold) as [[]%elem_of_nil|(p & q & -> & _)].
      apply Hanc.
      - apply elem_of_app. right. by left.
      - by apply (proj1 (Forall_forall _ _) (good_capable _ Hp1)). }
    rewrite Hins in Hrun.
    assert (good (p1 ++ [y])) as Hgood'
      by (rewrite <- Hins; by apply good_insert).
    destruct (resolve_from_ok post _ r Hgood' Hrun) as (_ & Hsub & _ & _).
    assert (x ∈ p1) as Hxp1.
    { assert (type_of x ∈ type_of <$> p1) as Hin.
      { apply Hty1. right. split.
        - apply list_elem_of_fmap. by exists x.
        - by apply (proj1 (Forall_forall _ _) (good_capable _ Hr)). }
      apply list_elem_of_fmap in Hin as (x' & Heq & Hx').
      assert (x = x') as ->; [|done].
      apply (same_type_same_candidate r); [apply Hr|done| |done].
      eapply elem_of_sublist; [|done]. apply elem_of_app. by left. }
    apply sublist_precedes. etrans; [|done].
    apply list_elem_of_split in Hxp1 as (k1 & k2 & ->).
    rewrite <- app_assoc. simpl.
    apply sublist_inserts_l, sublist_skip, sublist_inserts_l. done.
Qed.

Lemma has_array_function_inherited t u :
  issubclass t u = true → has_array_function u = true →
  has_array_function t = true.
Proof.
  induction t as [|n h base IH]; rewrite issubclass_unfold;
    case_decide as Heq; subst; try done.
  intros Hsub Hu. simpl. rewrite (IH Hsub Hu). by destruct h.
Qed.

(** ** The ordering of the candidates *)

Lemma insert_candidate_split y placed :
  ∃ l1 l2,
    placed = l1 ++ l2 ∧ insert_candidate y placed = l1 ++ y :: l2 ∧
    Forall (λ x, issubclass (type_of y) (type_of x) = false) l1 ∧
    (∀ z, head l2 = Some z → issubclass (type_of y) (type_of z) = true).
Proof.
  induction placed as [|old rest IH]; simpl.
  { exists [], []. split_and!; [done|done|constructor|done]. }
  destruct (issubclass (type_of y) (type_of old)) eqn:Hsub.
  - exists [], (old :: rest). split_and!; [done|done|constructor|].
    by intros z [= <-].
  - destruct IH as (l1 & l2 & -> & -> & Hl1 & Hl2).
    exists (old :: l1), l2. split_and!; [done|done| |done].
    by constructor.
Qed.

Lemma candidate_types_length_mono (l1 l2 : list pyobj) :
  l1 ⊆ l2 → length (candidate_types l1) ≤ length (candidate_types l2).
Proof.
  intros Hsub. apply submseteq_length, NoDup_submseteq.
  - apply NoDup_remove_dups.
  - intros t. rewrite !candidate_types_spec.
    intros [(x & -> & Hx)%list_elem_of_fmap Hcap]. split; [|done].
    apply list_elem_of_fmap. exists x. split; [done|by apply Hsub].
Qed.

Lemma resolveCandidates_placement (args : list pyobj) :
  length (candidate_types args) ≤ max_candidate_types →
  placed_before_first_ancestor args.
Proof.
  intros Hle pre y post ->.
  destruct (resolveCandidates_total pre) as [p Hp].
  { etrans; [|done]. apply candidate_types_length_mono.
    intros x Hx. apply elem_of_app. by left. }
  destruct (resolveCandidates_total (pre ++ [y])) as [p' Hp'].
  { etrans; [|done]. apply candidate_types_length_mono.
    intros x [Hx|Hx%list_elem_of_singleton]%elem_of_app;
      apply elem_of_app; [by left|right; subst; by left]. }
  exists p. split; [done|].
  unfold resolveCandidates in *. rewrite resolve_from_app, Hp in *.
  simpl in *.
  destruct (consider_cases p y)
    as [(Hold & Hc)|[(Hnew & Hlt & Hc)|(Hnew & Hge & Hc)]];
    rewrite Hc in *; [| |done].
  - split; [done|]. intros Hnew. by destruct Hold.
  - split; [intros Hold; by destruct Hold|]. intros _.
    destruct (insert_candidate_split y p) as (l1 & l2 & H1 & H2 & H3 & H4).
    exists l1, l2. by rewrite H2.
Qed.

(** C3, as the specified scan has it: resolution succeeds when the
    arguments show at most 32 distinct capable classes, and the ordering is
    then a [candidate_ordering]: one entry per class, each the first
    argument of its class; a strict subclass before its ancestor; an entry
    with no ancestor among the classes seen before it after every entry
    seen before it.  Argument by argument, an entry is put right before the
    first entry already placed whose class is an ancestor of its own
    (possibly ahead of unrelated entries seen earlier) and at the end when
    there is none, which settles the ordering.  For two arguments of
    classes A and B, B a strict subclass of A, the ordering is [B, A] in
    either order of the arguments. *)
Theorem resolveCandidates_ordering (args : list pyobj) :
  (length (candidate_types args) ≤ max_candidate_types →
   ∃ r, resolveCandidates args = Ok r ∧ candidate_ordering args r ∧
        placed_before_first_ancestor args) ∧
  (∀ x y, has_array_function (type_of x) = true →
          strict_subclass (type_of y) (type_of x) →
          args = [x; y] ∨ args = [y; x] →
          resolveCandidates args = Ok [y; x]).
Proof.
  split.
  - intros Hle. destruct (resolveCandidates_total args Hle) as [r Hr].
    exists r. split_and!; [done| |].
    + by apply resolveCandidates_candidate_ordering.
    + by apply resolveCandidates_placement.
  - intros x y Hx [Hne Hsub] Hargs.
    assert (has_array_function (type_of y) = true) as Hy
      by (by eapply has_array_function_inherited).
    assert (issubclass (type_of x) (type_of y) = false) as Hback.
    { destruct (issubclass (type_of x) (type_of y)) eqn:H; [|done].
      destruct Hne. by apply issubclass_antisym. }
    destruct Hargs as [-> | ->]; unfold resolveCandidates; simpl;
      unfold consider; simpl; rewrite Hx, Hy; simpl.
    + rewrite bool_decide_eq_false_2
        by (rewrite list_elem_of_singleton; congruence).
      simpl. by rewrite Hsub.
    + rewrite bool_decide_eq_false_2
        by (rewrite list_elem_of_singleton; congruence).
      simpl. by rewrite Hback.
Qed.

Lemma resolveCandidates_ordering_witness :
  (∃ r, resolveCandidates [array; other; override_sub] = Ok r ∧
        candidate_ordering [array; other; override_sub] r ∧
        placed_before_first_ancestor [array; other; override_sub]) ∧
  resolveCandidates [a; b] = Ok [b; a] ∧
  resolveCandidates [b; a] = Ok [b; a].
Proof.
  split_and!.
  - apply (proj1 (resolveCandidates_ordering [array; other; override_sub])).
    vm_compute. lia.
  - apply (proj2 (resolveCandidates_ordering [a; b]) a b);
      [done | by split | by left].
  - apply (proj2 (resolveCandidates_ordering [b; a]) a b);
      [done | by split | by right].
Defined.

(** C3 as worded fails on the arguments of
    [test_ndarray_subclass_and_duck_array]: [other] is seen before
    [override_sub], their classes are unrelated, and [override_sub] is
    placed first. *)
Lemma unrelated_candidates_reordered :
  resolveCandidates [array; other; override_sub]
  = Ok [override_sub; array; other] ∧
  ¬ keeps_first_seen_order [array; other; override_sub].
Proof.
  split; [done|]. intros H.
  destruct (H [override_sub; array; other] other override_sub)
    as (i & j & Hi & Hj & Hij).
  - done.
  - set_solver.
  - set_solver.
  - by intros [?|?].
  - exists 1, 2. split_and!; [done..|lia].
  - destruct i as [|[|[|i]]], j as [|[|[|j]]]; simpl in *; done || lia.
Qed.

(** ** The cap on candidate types *)

(** C4: with at most 32 distinct capable classes among the arguments (so
    with exactly 32) resolution succeeds and the ordering holds one entry
    for each of these classes, every entry being one of the arguments; with
    more than 32 it fails with [TooManyCandidateTypesError]. *)
Theorem resolveCandidates_cap (args : list pyobj) :
  (length (candidate_types args) ≤ max_candidate_types →
   ∃ r, resolveCandidates args = Ok r ∧
        type_of <$> r ≡ₚ candidate_types args ∧
        length r = length (candidate_types args) ∧
        Forall (λ x, x ∈ args) r) ∧
  (max_candidate_types < length (candidate_types args) →
   resolveCandidates args
   = Failed (TooManyCandidateTypesError max_candidate_types)).
Proof.
  split.
  - intros Hle. destruct (resolveCandidates_total args Hle) as [r Hr].
    pose proof (resolveCandidates_types _ _ Hr) as Hperm.
    exists r. split_and!; [done..| |].
    + by rewrite <- Hperm, length_fmap.
    + apply Forall_forall. intros x Hx.
      destruct (resolveCandidates_candidate_ordering _ _ Hr)
        as (_ & _ & Hfirst & _).
      destruct (Hfirst x Hx) as (_ & pre & post & -> & _).
      apply elem_of_app. right. by left.
  - intros Hgt. destruct (resolveCandidates args) as [r|e] eqn:Hrun.
    + pose proof (resolveCandidates_types _ _ Hrun) as Hperm.
      destruct (resolve_from_ok args [] r good_nil Hrun) as (Hr & _).
      pose proof (good_length _ Hr) as Hlen.
      rewrite <- Hperm, length_fmap in Hgt. lia.
    + by destruct (resolve_from_failed args [] e good_nil Hrun) as (-> & _).
Qed.

Lemma resolveCandidates_cap_witness :
  (∃ r, resolveCandidates (duck <$> seq 0 32) = Ok r ∧
        type_of <$> r ≡ₚ candidate_types (duck <$> seq 0 32) ∧
        length r = length (candidate_types (duck <$> seq 0 32)) ∧
        Forall (λ x, x ∈ duck <$> seq 0 32) r) ∧
  resolveCandidates (duck <$> seq 0 33)
  = Failed (TooManyCandidateTypesError max_candidate_types).
Proof.
  split.
  - apply (proj1 (resolveCandidates_cap (duck <$> seq 0 32))).
    vm_compute. lia.
  - apply (proj2 (resolveCandidates_cap (duck <$> seq 0 33))).
    vm_compute. lia.
Defined.

(** ** Instances of the base array class *)

(** C5, as the test-suite has it: an instance of the base array class is a
    candidate like any other.  When resolution succeeds (at most 32
    distinct capable classes) and the arguments hold an instance of the
    base class, the ordering holds one, whatever other candidates there
    are, and every candidate of a strict subclass of the base class stands
    before it. *)
Theorem base_array_is_candidate (args : list pyobj) (x : pyobj) :
  length (candidate_types args) ≤ max_candidate_types →
  x ∈ args → type_of x = ndarray_t →
  ∃ r x0, resolveCandidates args = Ok r ∧
          x0 ∈ r ∧ type_of x0 = ndarray_t ∧
          ∀ c, c ∈ r → strict_subclass (type_of c) ndarray_t →
               precedes r c x0.
Proof.
  intros Hle Hx Hty.
  destruct (resolveCandidates_total args Hle) as [r Hrun].
  destruct (resolveCandidates_candidate_ordering args r Hrun)
    as (_ & Hall & _ & Hsub & _).
  assert (type_of x ∈ type_of <$> r) as Hin
    by (apply Hall; [done|by rewrite Hty]).
  apply list_elem_of_fmap in Hin as (x0 & Heq & Hx0).
  exists r, x0. split_and!; [done..|congruence|].
  intros c Hc Hstrict.
  apply list_elem_of_lookup in Hc as [i Hi].
  apply list_elem_of_lookup in Hx0 as [j Hj].
  exists i, j. split_and!; [done..|].
  apply (Hsub i j c x0 Hi Hj). congruence.
Qed.

Lemma base_array_is_candidate_witness :
  ∃ r x0, resolveCandidates [array; override_sub] = Ok r ∧
          x0 ∈ r ∧ type_of x0 = ndarray_t ∧
          ∀ c, c ∈ r → strict_subclass (type_of c) ndarray_t →
               precedes r c x0.
Proof.
  apply (base_array_is_candidate [array; override_sub] array).
  - vm_compute. lia.
  - by left.
  - done.
Defined.

(** C5 as worded fails on the arguments of [test_ndarray_subclasses]: the
    base-class instance is listed although [override_sub], of a subclass of
    the base class, is a candidate too. *)
Lemma base_array_listed_beside_subclass :
  resolveCandidates [array; override_sub] = Ok [override_sub; array] ∧
  ¬ base_defers_to_related [array; override_sub].
Proof.
  split; [done|]. intros H.
  apply (H [override_sub; array] array override_sub); try done.
  - by left.
  - by left.
  - by left.
  - set_solver.
Qed.

(** ** Dispatch *)

Lemma try_candidates_all_declined hook c types args candidates :
  Forall (λ x, hook x c types args = Declined) candidates →
  try_candidates hook c types args candidates
  = Failed (NoImplementationFoundError (call_module c) (call_name c)).
Proof. induction 1 as [|x l Hx _ IH]; simpl; [done|]. by rewrite Hx. Qed.

(** With no candidate the default implementation runs. *)
Lemma dispatch_no_candidates hook c relevant args invoke_default :
  resolveCandidates relevant = Ok [] →
  dispatch hook c relevant args invoke_default = invoke_default args.
Proof. intros H. unfold dispatch. by rewrite H. Qed.

(** C6: when there are candidates and the hook of every one of them
    returns the not-implemented sentinel, [dispatch] fails with
    [NoImplementationFoundError], which carries the module and the name of
    the call. *)
Theorem dispatch_all_declined hook c relevant args invoke_default candidates :
  resolveCandidates relevant = Ok candidates → candidates ≠ [] →
  Forall (λ x, hook x c (type_of <$> candidates) args = Declined) candidates →
  dispatch hook c relevant args invoke_default
  = Failed (NoImplementationFoundError (call_module c) (call_name c)).
Proof.
  intros Hrun Hne Hall. unfold dispatch. rewrite Hrun.
  destruct candidates as [|x l]; [done|].
  by apply try_candidates_all_declined.
Qed.

Lemma dispatch_all_declined_witness :
  dispatch return_not_implemented my_func [my_array] [my_array]
           (λ args, Ok (PyStr "original"))
  = Failed (NoImplementationFoundError "my" "func").
Proof.
  apply (dispatch_all_declined return_not_implemented my_func [my_array]
           [my_array] _ [my_array]).
  - reflexivity.
  - done.
  - by repeat constructor.
Defined.

(** * Further facts about the override protocol *)

(** ** Which arguments the resolver looks at *)

Lemma resolve_from_first_capable args : ∀ placed seen,
  (∀ t, t ∈ seen ↔ t ∈ type_of <$> placed) →
  resolve_from placed args = resolve_from placed (first_capable seen args).
Proof.
  induction args as [|x rest IH]; intros placed seen Hseen; simpl; [done|].
  assert (bool_decide (type_of x ∈ seen)
          = bool_decide (type_of x ∈ type_of <$> placed)) as Hb
    by (apply bool_decide_ext, Hseen).
  destruct (consider_cases placed x)
    as [(Hold & Hc)|[(Hnew & Hlt & Hc)|(Hnew & Hge & Hc)]].
  - assert (has_array_function (type_of x)
            && negb (bool_decide (type_of x ∈ seen)) = false) as ->.
    { rewrite Hb. clear Hb.
      destruct (has_array_function (type_of x)) eqn:Hcap; [|done].
      simpl. case_bool_decide as Hin; simpl; [done|]. destruct Hold. by split. }
    rewrite Hc. by apply IH.
  - destruct Hnew as [Hcap Hnew].
    rewrite Hb, Hcap, (bool_decide_eq_false_2 _ Hnew). simpl. rewrite Hc.
    apply IH. intros t. rewrite insert_candidate_perm. simpl.
    rewrite !elem_of_cons, Hseen. done.
  - destruct Hnew as [Hcap Hnew].
    rewrite Hb, Hcap, (bool_decide_eq_false_2 _ Hnew). simpl. by rewrite Hc.
Qed.

Lemma first_capable_sublist args : ∀ seen,
  first_capable seen args `sublist_of` args.
Proof.
  induction args as [|x rest IH]; intros seen; simpl; [done|].
  destruct (_ && _); [by apply sublist_skip|by apply sublist_cons].
Qed.

Lemma first_capable_props args : ∀ seen,
  Forall (λ x, has_array_function (type_of x) = true ∧ type_of x ∉ seen)
         (first_capable seen args) ∧
  NoDup (type_of <$> first_capable seen args).
Proof.
  induction args as [|x rest IH]; intros seen; simpl.
  { split; constructor. }
  destruct (has_array_function (type_of x)) eqn:Hcap; simpl; [|apply IH].
  case_bool_decide as Hin; simpl; [apply IH|].
  destruct (IH (type_of x :: seen)) as [Hall Hnd]. split.
  - constructor; [done|]. eapply Forall_impl; [done|].
    intros y [? Hy]. split; [done|]. intros ?. apply Hy. by right.
  - apply NoDup_cons. split; [|done].
    intros (y & Heq & Hy)%list_elem_of_fmap.
    rewrite Forall_forall in Hall. destruct (Hall y Hy) as [_ Hnot].
    apply Hnot. rewrite Heq. by left.
Qed.

(** X16: only the first argument of each capable class matters to the
    resolver: arguments whose class lacks the hook, and arguments of a
    class already seen, can be removed without changing the result (an
    ordering or the error). *)
Theorem resolveCandidates_first_capable (args : list pyobj) :
  resolveCandidates args = resolveCandidates (first_capable [] args) ∧
  first_capable [] args `sublist_of` args.
Proof.
  split; [|apply first_capable_sublist].
  unfold resolveCandidates. by apply resolve_from_first_capable.
Qed.

Lemma resolve_from_unrelated (l : list pyobj) : ∀ placed,
  Forall (λ x, has_array_function (type_of x) = true) l →
  NoDup (type_of <$> placed ++ l) →
  (∀ x y, x ∈ placed → y ∈ l → issubclass (type_of y) (type_of x) = false) →
  (∀ x y, x ∈ l → y ∈ l → type_of x ≠ type_of y →
          issubclass (type_of y) (type_of x) = false) →
  length placed + length l ≤ max_candidate_types →
  resolve_from placed l = Ok (placed ++ l).
Proof.
  induction l as [|y l IH]; intros placed Hcap Hnd Hold Hnew Hlen; simpl.
  { by rewrite app_nil_r. }
  apply Forall_cons in Hcap as [Hy Hcap].
  rewrite fmap_app in Hnd. simpl in Hnd.
  pose proof Hnd as Hnd'.
  apply NoDup_app in Hnd' as (_ & Hdisj & [Hyl _]%NoDup_cons).
  assert (type_of y ∉ type_of <$> placed) as Hfresh.
  { intros Hin. apply (Hdisj _ Hin). by left. }
  simpl in Hlen.
  destruct (consider_cases placed y)
    as [(Hno & _)|[(_ & _ & ->)|(_ & Hge & _)]]; [by destruct Hno| |lia].
  rewrite insert_candidate_append.
  - rewrite (IH (placed ++ [y])); [by rewrite <- app_assoc|done|..].
    + by rewrite <- app_assoc, fmap_app.
    + intros x z [Hx|Hx%list_elem_of_singleton]%elem_of_app Hz.
      * apply Hold; [done|by right].
      * subst x. apply Hnew; [by left|by right|].
        intros Heq. apply Hyl. rewrite Heq.
        apply list_elem_of_fmap. by exists z.
    + intros x z Hx Hz. apply Hnew; by right.
    + rewrite length_app. simpl. lia.
  - apply Forall_forall. intros x Hx. apply Hold; [done|by left].
Qed.

(** X17: when no capable class among the arguments derives from another
    one and there are at most 32 of them, the ordering is the first
    argument of each capable class, in the order of the arguments. *)
Theorem resolveCandidates_unrelated (args : list pyobj) :
  (∀ x y, x ∈ args → y ∈ args →
          has_array_function (type_of x) = true →
          has_array_function (type_of y) = true →
          type_of x ≠ type_of y →
          issubclass (type_of y) (type_of x) = false) →
  length (first_capable [] args) ≤ max_candidate_types →
  resolveCandidates args = Ok (first_capable [] args).
Proof.
  intros Hunrel Hlen.
  unfold resolveCandidates.
  rewrite (resolve_from_first_capable args [] []) by done.
  destruct (first_capable_props args []) as [Hall Hnd].
  pose proof (first_capable_sublist args []) as Hsub.
  apply (resolve_from_unrelated _ []); try done.
  - eapply Forall_impl; [done|]. by intros x [? _].
  - intros x y []%elem_of_nil.
  - intros x y Hx Hy Hne. rewrite Forall_forall in Hall.
    apply Hunrel; [by eapply elem_of_sublist..| | |done].
    + by destruct (Hall x Hx).
    + by destruct (Hall y Hy).
Qed.

Lemma resolveCandidates_unrelated_witness :
  resolveCandidates [a; one; d; a] = Ok (first_capable [] [a; one; d; a]).
Proof.
  apply (resolveCandidates_unrelated [a; one; d; a]).
  - intros x y Hx Hy _ _ Hne.
    repeat (apply elem_of_cons in Hx as [->|Hx]);
      repeat (apply elem_of_cons in Hy as [->|Hy]);
      try (by apply elem_of_nil in Hx); try (by apply elem_of_nil in Hy);
      done.
  - vm_compute. lia.
Defined.

(** ** The duck array and its registry *)

Lemma duck_array_function_cases H self func types args :
  duck_array_function H self func types args =
  match H !! function_id func with
  | Some implementation =>
      if forallb (λ t, issubclass t MyArray) types
      then implementation args else Declined
  | None => Declined
  end.
Proof.
  unfold duck_array_function.
  destruct (H !! function_id func) as [implementation|] eqn:Hfunc.
  - rewrite bool_decide_eq_false_2 by done. by destruct (forallb _ _).
  - by rewrite bool_decide_eq_true_2.
Qed.




(** X19: the hook of the duck array never fails on its own and claims a
    call only through the registry: an answer other than the
    not-implemented sentinel is the answer of the implementation registered
    for the function, and every type of the call derives from [MyArray]. *)
Theorem duck_array_function_claims H self func types args :
  duck_array_function H self func types args ≠ Declined →
  ∃ implementation,
    H !! function_id func = Some implementation ∧
    Forall (λ t, issubclass t MyArray = true) types ∧
    duck_array_function H self func types args = implementation args.
Proof.
  rewrite duck_array_function_cases.
  destruct (H !! function_id func) as [implementation|]; [|done].
  destruct (forallb _ types) eqn:Hall; [|done].
  intros _. exists implementation. split_and!; [done| |done].
  clear -Hall. induction types as [|t l IH]; [constructor|].
  simpl in Hall. apply andb_prop in Hall as [Ht Hl].
  constructor; [done|by apply IH].
Qed.

Lemma duck_array_function_claims_witness :
  ∃ implementation,
    (implements my_function (λ _, Claimed PyNone) ∅).1
      !! function_id my_function = Some implementation ∧
    Forall (λ t, issubclass t MyArray = true) [MyArray] ∧
    duck_array_function (implements my_function (λ _, Claimed PyNone) ∅).1
      my_array my_function [MyArray] [my_array] = implementation [my_array].
Proof.
  apply (duck_array_function_claims
           (implements my_function (λ _, Claimed PyNone) ∅).1
           my_array my_function [MyArray] [my_array]).
  rewrite duck_array_function_cases. unfold implements. simpl.
  rewrite lookup_insert_eq. simpl. discriminate.
Defined.



(** [test_one_arg] and [test_not_implemented]: the registered function is
    answered by its implementation; a function that is not registered, be
    it of the same module and name, finds no implementation; without a
    capable argument the default runs. *)
Example dispatch_duck_arrays_suite :
  let H := (implements my_function (λ _, Claimed (PyStr "myarray")) ∅).1 in
  dispatch (λ x _, duck_array_function H x my_function) my_func
           [my_array] [my_array] (λ _, Ok (PyStr "original"))
  = Ok (PyStr "myarray") ∧
  dispatch (λ x _, duck_array_function H x my_function') my_func
           [my_array] [my_array] (λ _, Ok (PyStr "original"))
  = Failed (NoImplementationFoundError "my" "func") ∧
  dispatch (λ x _, duck_array_function H x my_function) my_func
           [one] [one] (λ _, Ok (PyStr "original"))
  = Ok (PyStr "original").
Proof. by vm_compute. Qed.



End OverridesFacts.
